(** * AsciiFluid: the metaball ASCII field renderer of [src/components/AsciiFluid.tsx]

    A shallow embedding of the effect body of the [AsciiFluid] component:
    the closure variables ([time], [blobs], [buffer]), the per-frame callback
    [renderFrame], and the host primitives it talks to ([Math.random],
    [requestAnimationFrame], [cancelAnimationFrame], the [<pre>] element
    behind [preRef]).

    Numbers.  JavaScript numbers are IEEE-754 doubles; they are modelled here
    by the real numbers, [Math.sin], [Math.cos] and [Math.floor] by [sin],
    [cos] and [Zfloor].  Loop counters and array indices, which only ever
    hold small non-negative integers, are [nat]. *)

From Stdlib Require Import Reals Lra Lia ZArith List String Ascii Bool Arith.
From Stdlib Require Import Zfloor.
From Stdlib Require Import NArith DecimalString Sorted Permutation.
Import ListNotations.

Open Scope R_scope.

(** ** Constants of the effect body *)

Definition width : nat := 160.
Definition height : nat := 56.

(** Ordered from empty to solid: seven blanks, then twelve marks. *)
Definition chars : string := "       .,-~:;=!*#$@".

Definition numBlobs : nat := 18.

(** The line break appended after every serialized row. *)
Definition newline : ascii := ascii_of_nat 10.

(** ** Blobs *)

Module Blob.
Record t : Type := mk {
  x : R;
  y : R;
  kx : R;
  ky : R;
  speed : R;
  offset : R;
  radius : R
}.
End Blob.

(** The body of [blobs.forEach(b => ...)] at clock value [t]: the three
    assignments to [b.x], [b.y] and [b.radius]; the other fields are left
    as they are. *)
Definition updateBlob (t : R) (b : Blob.t) : Blob.t :=
  {| Blob.x := (INR width / 2)
               + sin (t * Blob.speed b + Blob.offset b) * (INR width * 0.35)
               + cos (t * 0.2 * Blob.speed b) * 15;
     Blob.y := (INR height / 2)
               + cos (t * Blob.speed b * 0.8 + Blob.offset b) * (INR height * 0.35)
               + sin (t * 0.3 * Blob.speed b) * 8;
     Blob.kx := Blob.kx b;
     Blob.ky := Blob.ky b;
     Blob.speed := Blob.speed b;
     Blob.offset := Blob.offset b;
     Blob.radius := 9 + sin (t * 3 + Blob.offset b) * 3 |}.

(** ** Field evaluation and glyph mapping *)

(** One iteration of [for (let b of blobs)]: the term added to [sumField]. *)
Definition contribution (cx cy : nat) (b : Blob.t) : R :=
  let dx := INR cx - Blob.x b in
  let dy := (INR cy - Blob.y b) * 2.2 in
  let rSq := Blob.radius b * Blob.radius b in
  let distSq := dx * dx + dy * dy in
  (rSq * 2.5) / (distSq + 8).

Definition sumField (bs : list Blob.t) (cx cy : nat) : R :=
  fold_left (fun acc b => acc + contribution cx cy b) bs 0.

(** [norm] after the two clamping [if]s. *)
Definition norm (val : R) : R :=
  let n := (val - 0.95) * 0.7 in
  let n := if Rlt_dec n 0 then 0 else n in
  if Rgt_dec n 1 then 1 else n.

Definition charIdx (val : R) : Z :=
  Zfloor (norm val * IZR (Z.of_nat (String.length chars) - 1)).

(** [s[i]] for a number [i] holding an integer: [undefined] ([None]) outside
    the string. *)
Definition char_at (s : string) (i : Z) : option ascii :=
  if (i <? 0)%Z then None else String.get (Z.to_nat i) s.

(** The value stored into [buffer[idx]] for the cell [(cx, cy)]. *)
Definition glyph (bs : list Blob.t) (cx cy : nat) : option ascii :=
  char_at chars (charIdx (sumField bs cx cy)).

(** ** JavaScript arrays and string building *)

(** [a[i] = v]: a store past the end extends the array with holes. *)
Fixpoint array_set {A : Type} (a : list (option A)) (i : nat) (v : option A)
  : list (option A) :=
  match i, a with
  | O, [] => [v]
  | O, _ :: rest => v :: rest
  | S k, [] => None :: array_set [] k v
  | S k, e :: rest => e :: array_set rest k v
  end.

(** [a[i]]: a hole or an index past the end reads [undefined]. *)
Definition array_get {A : Type} (a : list (option A)) (i : nat) : option A :=
  nth i a None.

(** [new Array(n)]: [n] holes. *)
Definition new_Array {A : Type} (n : nat) : list (option A) := repeat None n.

(** What [output += v] appends for a buffer entry [v]. *)
Definition text_of (v : option ascii) : string :=
  match v with
  | Some c => String c EmptyString
  | None => "undefined"
  end.

(** ** The host: [Math.random] and the animation-frame scheduler *)

Record Host : Type := mkHost {
  random : nat -> R;        (* the successive results of [Math.random()] *)
  draws : nat;              (* how many of them have been consumed *)
  last_handle : nat;        (* the last handle [requestAnimationFrame] returned *)
  callbacks : list nat      (* handles of the callbacks awaiting the next frame *)
}.

Definition Math_random (h : Host) : R * Host :=
  (random h (draws h),
   mkHost (random h) (S (draws h)) (last_handle h) (callbacks h)).

Definition requestAnimationFrame (h : Host) : nat * Host :=
  let id := S (last_handle h) in
  (id, mkHost (random h) (draws h) id (callbacks h ++ [id])).

Definition cancelAnimationFrame (id : nat) (h : Host) : Host :=
  mkHost (random h) (draws h) (last_handle h)
         (remove Nat.eq_dec id (callbacks h)).

(** ** The effect: closure variables, [renderFrame], start and stop *)

Record World : Type := mkWorld {
  host : Host;
  preRef : option string;          (* [preRef.current]: [None] is [null], otherwise the element's [innerText] *)
  time : R;
  blobs : list Blob.t;
  buffer : list (option ascii);
  animationId : nat;
  presented : list string;         (* log: every string assigned to [innerText], newest first *)
  stores : nat                     (* log: how many [buffer[idx] = ...] stores were executed *)
}.

(** The body of the inner [for] loop, for the cell [(cx, cy)]; the state is
    the buffer together with the count of stores. *)
Definition cell (bs : list Blob.t) (cy : nat) (st : list (option ascii) * nat)
  (cx : nat) : list (option ascii) * nat :=
  let idx := (cx + cy * width)%nat in
  (array_set (fst st) idx (glyph bs cx cy), S (snd st)).

Definition row (bs : list Blob.t) (st : list (option ascii) * nat) (cy : nat)
  : list (option ascii) * nat :=
  fold_left (cell bs cy) (seq 0 width) st.

Definition fill (bs : list Blob.t) (st : list (option ascii) * nat)
  : list (option ascii) * nat :=
  fold_left (row bs) (seq 0 height) st.

(** The serialization loop: [output] grows by one entry per cell and by a
    line break after every row. *)
Definition append_cell (buf : list (option ascii)) (cy : nat) (output : string)
  (cx : nat) : string :=
  (output ++ text_of (array_get buf (cx + cy * width)))%string.

Definition serialize_row (buf : list (option ascii)) (output : string) (cy : nat)
  : string :=
  (fold_left (append_cell buf cy) (seq 0 width) output
   ++ String newline EmptyString)%string.

Definition serialize (buf : list (option ascii)) : string :=
  fold_left (serialize_row buf) (seq 0 height) EmptyString.

Definition renderFrame (w : World) : World :=
  let t := time w + 0.005 in
  let bs := map (updateBlob t) (blobs w) in
  let st := fill bs (buffer w, stores w) in
  let '(pre, log) :=
    match preRef w with
    | Some _ => let output := serialize (fst st) in
                (Some output, output :: presented w)
    | None => (None, presented w)
    end in
  let '(_, h) := requestAnimationFrame (host w) in
  mkWorld h pre t bs (fst st) (animationId w) log (snd st).

(** The callback of [Array.from({length: numBlobs}, ...)]: five draws, in
    the order of the object literal's properties. *)
Definition new_blob (h : Host) : Blob.t * Host :=
  let '(r1, h) := Math_random h in
  let '(r2, h) := Math_random h in
  let '(r3, h) := Math_random h in
  let '(r4, h) := Math_random h in
  let '(r5, h) := Math_random h in
  (Blob.mk (INR width / 2) (INR height / 2)
           ((r1 - 0.5) * 2) ((r2 - 0.5) * 2)
           (0.2 + r3 * 0.4) (r4 * 100) (5 + r5 * 8),
   h).

Fixpoint Array_from (n : nat) (h : Host) : list Blob.t * Host :=
  match n with
  | O => ([], h)
  | S k => let '(b, h1) := new_blob h in
           let '(bs, h2) := Array_from k h1 in
           (b :: bs, h2)
  end.

(** The effect body, run once after mount with the element [pre] behind
    [preRef]. *)
Definition start (h : Host) (pre : option string) : World :=
  let buf := new_Array (width * height) in
  let '(bs, h1) := Array_from numBlobs h in
  let '(id, h2) := requestAnimationFrame h1 in
  mkWorld h2 pre 0 bs buf id [] 0.

(** The cleanup the effect returns. *)
Definition stop (w : World) : World :=
  mkWorld (cancelAnimationFrame (animationId w) (host w))
          (preRef w) (time w) (blobs w) (buffer w) (animationId w)
          (presented w) (stores w).

(** React clears [preRef.current] when the element is removed. *)
Definition detach (w : World) : World :=
  mkWorld (host w) None (time w) (blobs w) (buffer w) (animationId w)
          (presented w) (stores w).

(** The host presents a frame: the callbacks registered so far are taken off
    the list ([taken]) and run in order; what they register waits for the
    next frame.  Every callback this effect registers is [renderFrame]. *)
Definition taken (w : World) : World :=
  mkWorld (mkHost (random (host w)) (draws (host w)) (last_handle (host w)) [])
          (preRef w) (time w) (blobs w) (buffer w) (animationId w)
          (presented w) (stores w).

Definition animation_frame (w : World) : World :=
  let due := callbacks (host w) in
  fold_left (fun w' _ => renderFrame w') due (taken w).

Definition frames (n : nat) (w : World) : World := Nat.iter n animation_frame w.

(** A host on which nothing has been scheduled yet. *)
Definition fresh_host (rnd : nat -> R) : Host := mkHost rnd 0 0 [].

(** Whether [preRef.current] holds an element: the guard of the write to
    [innerText]. *)
Definition attached (w : World) : bool :=
  match preRef w with
  | Some _ => true
  | None => false
  end.

(** The trajectory parameters of a blob. *)
Definition params (b : Blob.t) : R * R := (Blob.speed b, Blob.offset b).

(** Two worlds that agree on what a tick reads: the clock, each blob's
    [speed] and [offset], whether the element is attached, the frames shown
    so far and the number of callbacks awaiting the next frame.  The random
    source, the number of draws, the handles, the buffer's contents and each
    blob's [x], [y], [kx], [ky] and [radius] may all differ. *)
Definition low_equiv (w1 w2 : World) : Prop :=
  time w1 = time w2
  /\ map params (blobs w1) = map params (blobs w2)
  /\ attached w1 = attached w2
  /\ presented w1 = presented w2
  /\ List.length (callbacks (host w1)) = List.length (callbacks (host w2)).

(** ** Observations on a serialized frame *)

Fixpoint count_char (c : ascii) (s : string) : nat :=
  match s with
  | EmptyString => 0
  | String a rest => ((if Ascii.eqb a c then 1 else 0) + count_char c rest)%nat
  end.

(** The number of line breaks of [s]. *)
Definition line_breaks (s : string) : nat := count_char newline s.

(** The number of characters of [s] that are not line breaks. *)
Fixpoint glyph_count (s : string) : nat :=
  match s with
  | EmptyString => 0
  | String a rest => ((if Ascii.eqb a newline then 0 else 1) + glyph_count rest)%nat
  end.

(** ** Predicates and scenario data used by the statements *)

(** Every cell of the grid holds a character that is not a line break. *)
Definition cells_defined (buf : list (option ascii)) : Prop :=
  forall cx cy, (cx < width)%nat -> (cy < height)%nat ->
    exists c, array_get buf (cx + cy * width) = Some c /\ Ascii.eqb c newline = false.

(** The loop is alive: exactly one callback awaits the next frame, and it is
    the one registered last. *)
Definition looping (w : World) : Prop :=
  callbacks (host w) = [last_handle (host w)].

(** The handle the cleanup holds is older than the one that is pending. *)
Definition stale (w : World) : Prop :=
  (animationId w < last_handle (host w))%nat.

(** A single blob of radius 10 sitting exactly on the cell (80, 28). *)
Definition scenario_blob (kx ky speed offset : R) : Blob.t :=
  Blob.mk 80 28 kx ky speed offset 10.

(** The trajectory as the specification writes it ([centerX], [Ax], [Ax2],
    ... are its names), with the values the code's constants give them on
    the 160 x 56 grid. *)
Definition centerX : R := 80.
Definition centerY : R := 28.
Definition Ax : R := 56.
Definition Ay : R := 19.6.
Definition Ax2 : R := 15.
Definition Ay2 : R := 8.
Definition baseRadius : R := 9.
Definition amplitude : R := 3.

Definition spec_x (t speed offset : R) : R :=
  centerX + sin (t * speed + offset) * Ax + cos (t * 0.2 * speed) * Ax2.

Definition spec_y (t speed offset : R) : R :=
  centerY + cos (t * speed * 0.8 + offset) * Ay + sin (t * 0.3 * speed) * Ay2.

Definition spec_radius (t offset : R) : R :=
  baseRadius + amplitude * sin (3 * t + offset).

(** Concrete hosts and worlds for the examples. *)
Definition constant_source (r : R) : nat -> R := fun _ => r.

(** A source that differs from [constant_source 0] on the draws that become
    [kx], [ky] and the initial [radius] of every blob. *)
Definition other_source : nat -> R :=
  fun i => if (Nat.eqb (i mod 5) 2 || Nat.eqb (i mod 5) 3)%bool then 0 else 1.

Definition example_world : World :=
  start (fresh_host (constant_source 0)) (Some EmptyString).

(** Turn [INR] of a numeral into the real numeral. *)
Ltac inr_literals :=
  repeat match goal with
         | |- context [INR ?n] =>
             let z := eval compute in (Z.of_nat n) in
             rewrite (INR_IZR_INZ n); change (Z.of_nat n) with z
         end.

(** * The rest of the site: navigation, title rotation, blog helpers

    Strings of the remaining code are JavaScript strings: sequences of
    UTF-16 code units, here [list N].  [lit] writes an ASCII literal. *)

Definition jsstring : Type := list N.

Definition lit (s : string) : jsstring := map N_of_ascii (list_ascii_of_string s).

(** [a === b] on strings. *)
Fixpoint str_eqb (a b : jsstring) : bool :=
  match a, b with
  | [], [] => true
  | c :: a', d :: b' => N.eqb c d && str_eqb a' b'
  | _, _ => false
  end.

(** [s.startsWith(p)]. *)
Fixpoint startsWith (s p : jsstring) : bool :=
  match p, s with
  | [], _ => true
  | c :: p', d :: s' => N.eqb c d && startsWith s' p'
  | _ :: _, [] => false
  end.

(** ** [Navigation]: which item is highlighted *)

(** [isActive(href)] for the current [pathname]; [usePathname()] may give
    [null], and [pathname?.startsWith(href)] is then [undefined], which is
    falsy. *)
Definition isActive (pathname : option jsstring) (href : jsstring) : bool :=
  if (str_eqb href (lit "/")
      && match pathname with Some p => str_eqb p (lit "/") | None => false end)%bool
  then true
  else if (negb (str_eqb href (lit "/"))
           && match pathname with Some p => startsWith p href | None => false end)%bool
  then true
  else false.

(** The [href]s of [navItems]: Home, Posts, Contact. *)
Definition navItems : list jsstring := [lit "/"; lit "/blog"; lit "/#posts"].

(** ** The rotating title of the old home page *)

Definition titles : list jsstring :=
  [lit "COMPUTER ENGINEER"; lit "DESIGNER"; lit "BUILDER"; lit "WRITER"].

(** The module-level [currentTitleIndex] and the [textContent] of the
    element with id [rotating-title] ([None] when [getElementById] finds no
    element; [Some None] would be an element showing [undefined]). *)
Record TitleState : Type := mkTitleState {
  currentTitleIndex : nat;
  textContent : option (option jsstring)
}.

Definition updateTitle (s : TitleState) : TitleState :=
  let i := ((currentTitleIndex s + 1) mod List.length titles)%nat in
  mkTitleState i
    match textContent s with
    | Some _ => Some (nth_error titles i)
    | None => None
    end.

(** The module is loaded with [currentTitleIndex = 0]; the markup shows the
    first title. *)
Definition title_loaded : TitleState :=
  mkTitleState 0 (Some (Some (lit "COMPUTER ENGINEER"))).

(** ** [estimateReadTime] *)

(** The characters [\s] matches and [trim] removes: ECMAScript's WhiteSpace
    and LineTerminator code points. *)
Definition is_space (c : N) : bool :=
  (N.eqb c 9 || N.eqb c 10 || N.eqb c 11 || N.eqb c 12 || N.eqb c 13
   || N.eqb c 32 || N.eqb c 160 || N.eqb c 5760
   || (N.leb 8192 c && N.leb c 8202)
   || N.eqb c 8232 || N.eqb c 8233 || N.eqb c 8239 || N.eqb c 8287
   || N.eqb c 12288 || N.eqb c 65279)%bool%N.

Fixpoint trimStart (s : jsstring) : jsstring :=
  match s with
  | [] => []
  | c :: rest => if is_space c then trimStart rest else s
  end.

Definition trimEnd (s : jsstring) : jsstring := rev (trimStart (rev s)).

Definition trim (s : jsstring) : jsstring := trimEnd (trimStart s).

(** [s.split(/\s+/)]: the pieces between the maximal runs of white space; a
    run at either end leaves an empty piece there, and the empty string
    gives one empty piece.  [in_run] says that the previous character was
    white space, [cur] holds the current piece, reversed. *)
Fixpoint split_spaces (in_run : bool) (cur : jsstring) (s : jsstring)
  : list jsstring :=
  match s with
  | [] => [rev cur]
  | c :: rest =>
      if is_space c
      then if in_run then split_spaces true [] rest
           else rev cur :: split_spaces true [] rest
      else split_spaces false (c :: cur) rest
  end.

Definition wordsPerMinute : nat := 200.

(** [Math.ceil(a / b)] for non-negative integers [a] and positive [b]. *)
Definition ceil_div (a b : nat) : nat := ((a + b - 1) / b)%nat.

(** A non-negative integer in a template literal: its decimal digits. *)
Definition decimal (n : nat) : jsstring :=
  lit (NilEmpty.string_of_uint (Nat.to_uint n)).

Definition word_count (content : jsstring) : nat :=
  List.length (split_spaces false [] (trim content)).

Definition estimateReadTime (content : jsstring) : jsstring :=
  let words := word_count content in
  let minutes := ceil_div words wordsPerMinute in
  decimal minutes ++ lit " min read".

(** The number of words of [s] counted directly: the places where a
    character that is not white space follows white space or starts the
    string. *)
Fixpoint count_words (after_space : bool) (s : jsstring) : nat :=
  match s with
  | [] => 0
  | c :: rest =>
      if is_space c then count_words true rest
      else ((if after_space then 1 else 0) + count_words false rest)%nat
  end.

(** Whether the text read so far ends in white space: [r] before [s], the
    last character of [s] after it. *)
Fixpoint ends_in_space (r : bool) (s : jsstring) : bool :=
  match s with
  | [] => r
  | c :: rest => ends_in_space (is_space c) rest
  end.

(** ** [generateSlug] *)

Definition hyphen : N := 45%N.

Definition is_hyphen (c : N) : bool := N.eqb c hyphen.

Definition is_lower (c : N) : bool := (N.leb 97 c && N.leb c 122)%bool%N.

Definition is_digit (c : N) : bool := (N.leb 48 c && N.leb c 57)%bool%N.

(** The class [[a-z0-9\s-]], whose complement the first [replace] deletes. *)
Definition slug_keep (c : N) : bool :=
  (is_lower c || is_digit c || is_space c || is_hyphen c)%bool.

(** The characters a finished slug is made of. *)
Definition is_slug_char (c : N) : bool :=
  (is_lower c || is_digit c || is_hyphen c)%bool.

(** [s.replace(/X+/g, sep)] for a character class [X]: every maximal run of
    characters of [X] becomes one [sep]. *)
Fixpoint replace_runs (X : N -> bool) (sep : N) (in_run : bool) (s : jsstring)
  : jsstring :=
  match s with
  | [] => []
  | c :: rest =>
      if X c
      then if in_run then replace_runs X sep true rest
           else sep :: replace_runs X sep true rest
      else c :: replace_runs X sep false rest
  end.

(** [toLowerCase] on the ASCII letters only: one function with the property
    the statements below ask of [String.prototype.toLowerCase]. *)
Definition ascii_toLowerCase (s : jsstring) : jsstring :=
  map (fun c => if (N.leb 65 c && N.leb c 90)%bool%N then (c + 32)%N else c) s.

Section Slug.
(** [String.prototype.toLowerCase], whose Unicode tables are not part of the
    repository. *)
Variable toLowerCase : jsstring -> jsstring.

(** The chain before the final [.trim('-')]. *)
Definition slug_untrimmed (title : jsstring) : jsstring :=
  replace_runs is_hyphen hyphen false
    (replace_runs is_space hyphen false
       (filter slug_keep (toLowerCase title))).

(** [trim] takes no argument: [.trim('-')] is [.trim()]. *)
Definition generateSlug (title : jsstring) : jsstring :=
  trim (slug_untrimmed title).
End Slug.

(** No two hyphens in a row. *)
Fixpoint single_hyphens (s : jsstring) : bool :=
  match s with
  | c :: ((d :: _) as rest) => negb (is_hyphen c && is_hyphen d) && single_hyphens rest
  | _ => true
  end.

(** ** [getAllTags] *)

(** The fields of [BlogPostMeta]. *)
Module Post.
Record t : Type := mk {
  slug : jsstring;
  title : jsstring;
  date : jsstring;
  description : jsstring;
  tags : list jsstring;
  author : jsstring;
  readTime : jsstring;
  featured : bool;
  draft : bool
}.
End Post.

(** [tags.add(tag)] on a [Set]: insertion order is kept, a value already
    present is not added again. *)
Definition Set_add (tags : list jsstring) (tag : jsstring) : list jsstring :=
  if existsb (str_eqb tag) tags then tags else tags ++ [tag].

(** The default comparison of [Array.prototype.sort] on strings: by code
    units, a proper prefix first.  [str_leb a b] is [a <= b]. *)
Fixpoint str_leb (a b : jsstring) : bool :=
  match a, b with
  | [], _ => true
  | _ :: _, [] => false
  | c :: a', d :: b' =>
      if N.ltb c d then true
      else if N.ltb d c then false
      else str_leb a' b'
  end.

(** [Array.prototype.sort] leaves the order of its comparisons to the
    engine; on distinct strings every conforming sort returns the one
    increasing arrangement, computed here by insertion. *)
Fixpoint sort_insert (x : jsstring) (l : list jsstring) : list jsstring :=
  match l with
  | [] => [x]
  | y :: rest => if str_leb x y then x :: l else y :: sort_insert x rest
  end.

Definition Array_sort (l : list jsstring) : list jsstring :=
  fold_right sort_insert [] l.

(** [getAllTags], given what [getAllPosts()] returned. *)
Definition getAllTags (allPosts : list Post.t) : list jsstring :=
  let tags :=
    fold_left (fun tags post => fold_left Set_add (Post.tags post) tags)
              allPosts [] in
  Array_sort tags.

(** ** Post files and their slugs *)

(** [s.endsWith(p)]. *)
Definition endsWith (s p : jsstring) : bool := startsWith (rev s) (rev p).

(** [fileName.replace(/\.md$/, '')]. *)
Definition strip_md (fileName : jsstring) : jsstring :=
  if endsWith fileName (lit ".md")
  then firstn (List.length fileName - 3) fileName
  else fileName.

(** [getAllPostSlugs], given what [fs.readdirSync(postsDirectory)] returned:
    [None] when it threw, in which case the [catch] returns the empty
    list. *)
Definition getAllPostSlugs (dir : option (list jsstring)) : list jsstring :=
  match dir with
  | Some fileNames =>
      map strip_md (filter (fun fileName => endsWith fileName (lit ".md")) fileNames)
  | None => []
  end.

(** The file name [getPostBySlug] looks for: [`${slug}.md`]. *)
Definition post_file (slug : jsstring) : jsstring := slug ++ lit ".md".

(** ** Frontmatter lines: [createStandardFrontmatter] and [extractFrontmatter] *)

Definition colon : N := 58%N.
Definition comma : N := 44%N.

(** The single and the double quote: the class of the two [replace]
    patterns below. *)
Definition is_quote (c : N) : bool := (N.eqb c 39 || N.eqb c 34)%bool%N.

(** [line.indexOf(':')]: [None] is [-1]. *)
Fixpoint indexOf (c : N) (s : jsstring) : option nat :=
  match s with
  | [] => None
  | d :: rest => if N.eqb d c then Some 0%nat
                 else match indexOf c rest with
                      | Some i => Some (S i)
                      | None => None
                      end
  end.

(** [s.split(',')] for a one-character separator: the pieces between the
    separators; [cur] holds the current piece, reversed. *)
Fixpoint split_on (sep : N) (cur : jsstring) (s : jsstring) : list jsstring :=
  match s with
  | [] => [rev cur]
  | c :: rest => if N.eqb c sep then rev cur :: split_on sep [] rest
                 else split_on sep (c :: cur) rest
  end.

(** [pieces.join(', ')]. *)
Fixpoint join_comma (pieces : list jsstring) : jsstring :=
  match pieces with
  | [] => []
  | [p] => p
  | p :: rest => p ++ lit ", " ++ join_comma rest
  end.

(** [v.replace(/[quotes]/g, '')]: every quote goes. *)
Definition remove_quotes (v : jsstring) : jsstring :=
  filter (fun c => negb (is_quote c)) v.

(** [value.replace(/^[quotes]|[quotes]$/g, '')]: a quote at the start goes,
    and so does a quote at the end of what follows. *)
Definition strip_edge_quotes (value : jsstring) : jsstring :=
  let tail := match value with
              | c :: rest => if is_quote c then rest else value
              | [] => []
              end in
  match rev tail with
  | c :: front => if is_quote c then rev front else tail
  | [] => tail
  end.

(** [value.slice(1, -1)]. *)
Definition slice_inner (value : jsstring) : jsstring :=
  firstn (List.length value - 2) (skipn 1 value).

(** What [frontmatter[key]] receives: a string or an array of strings. *)
Inductive FrontValue : Type :=
| VString (s : jsstring)
| VArray (items : list jsstring).

(** The value part of the body of [frontmatterContent.split('\n').forEach]. *)
Definition parse_value (value : jsstring) : FrontValue :=
  if (startsWith value (lit "[") && endsWith value (lit "]"))%bool
  then VArray (map (fun v => remove_quotes (trim v))
                   (split_on comma [] (slice_inner value)))
  else VString (strip_edge_quotes value).

(** The body of the [forEach]: the key and value a line contributes, [None]
    for a line without a colon. *)
Definition parse_line (line : jsstring) : option (jsstring * FrontValue) :=
  match indexOf colon line with
  | Some colonIndex =>
      let key := trim (firstn colonIndex line) in
      let value := trim (skipn (colonIndex + 1) line) in
      Some (key, parse_value value)
  | None => None
  end.

(** [tagsString] of [createStandardFrontmatter] for an array of tags. *)
Definition tagsString (tags : list jsstring) : jsstring :=
  lit "[" ++ join_comma (map (fun tag => lit "'" ++ tag ++ lit "'") tags) ++ lit "]".

(** The line [tags: ${tagsString}] of the template. *)
Definition tags_line (tags : list jsstring) : jsstring :=
  lit "tags: " ++ tagsString tags.

(** A line [${key}: ${value}] of the template. *)
Definition field_line (key value : jsstring) : jsstring :=
  key ++ lit ": " ++ value.

(** The tags typed at the prompt, in [migrateFile] and [createNewPost]:
    [tagsInput.split(',').map(tag => tag.trim()).filter(Boolean)]; the empty
    string is the one falsy string. *)
Definition tags_of_input (tagsInput : jsstring) : list jsstring :=
  filter (fun tag => match tag with [] => false | _ :: _ => true end)
         (map trim (split_on comma [] tagsInput)).

(** A value that is neither bracketed nor has a quote at either end. *)
Definition is_plain_value (value : jsstring) : bool :=
  (negb (startsWith value (lit "[") && endsWith value (lit "]"))
   && negb match value with c :: _ => is_quote c | [] => false end
   && negb match rev value with c :: _ => is_quote c | [] => false end)%bool.

(** ** Numeric facts *)

Lemma INR_width : INR width = 160.
Proof. unfold width. rewrite INR_IZR_INZ. reflexivity. Qed.

Lemma INR_height : INR height = 56.
Proof. unfold height. rewrite INR_IZR_INZ. reflexivity. Qed.

Lemma width_val : width = 160%nat.
Proof. reflexivity. Qed.

Lemma height_val : height = 56%nat.
Proof. reflexivity. Qed.

Lemma numBlobs_val : numBlobs = 18%nat.
Proof. reflexivity. Qed.

Lemma ramp_last : IZR (Z.of_nat (String.length chars) - 1) = 18.
Proof. reflexivity. Qed.

Lemma norm_range (val : R) : 0 <= norm val <= 1.
Proof.
  unfold norm.
  destruct (Rlt_dec ((val - 0.95) * 0.7) 0) as [Hneg | Hpos].
  - destruct (Rgt_dec 0 1); lra.
  - destruct (Rgt_dec ((val - 0.95) * 0.7) 1); lra.
Qed.

Lemma norm_monotone (u v : R) : u <= v -> norm u <= norm v.
Proof.
  intros Huv. unfold norm.
  destruct (Rlt_dec ((u - 0.95) * 0.7) 0);
    destruct (Rlt_dec ((v - 0.95) * 0.7) 0);
    repeat match goal with
           | |- context [Rgt_dec ?a ?b] => destruct (Rgt_dec a b)
           end; lra.
Qed.

(** [norm] is the clamp of the specification. *)
Lemma norm_is_clamp (val : R) : norm val = Rmax 0 (Rmin 1 ((val - 0.95) * 0.7)).
Proof.
  unfold norm, Rmax, Rmin.
  destruct (Rlt_dec ((val - 0.95) * 0.7) 0);
    destruct (Rle_dec 1 ((val - 0.95) * 0.7));
    repeat match goal with
           | |- context [Rgt_dec ?a ?b] => destruct (Rgt_dec a b)
           | |- context [Rle_dec ?a ?b] => destruct (Rle_dec a b)
           end; lra.
Qed.

Lemma norm_below_threshold (val : R) : val <= 0.95 -> norm val = 0.
Proof.
  intros Hv. unfold norm.
  destruct (Rlt_dec ((val - 0.95) * 0.7) 0).
  - destruct (Rgt_dec 0 1); lra.
  - destruct (Rgt_dec ((val - 0.95) * 0.7) 1); lra.
Qed.

Lemma norm_saturated (val : R) : 1 <= (val - 0.95) * 0.7 -> norm val = 1.
Proof.
  intros Hv. unfold norm.
  destruct (Rlt_dec ((val - 0.95) * 0.7) 0).
  - lra.
  - destruct (Rgt_dec ((val - 0.95) * 0.7) 1); lra.
Qed.

Lemma charIdx_range (val : R) : (0 <= charIdx val <= 18)%Z.
Proof.
  unfold charIdx. rewrite ramp_last.
  pose proof (norm_range val) as [Hlo Hhi].
  split.
  - apply Zfloor_lub. simpl. lra.
  - pose proof (Zfloor_bound (norm val * 18)) as [Hfl _].
    apply le_IZR. lra.
Qed.

Lemma charIdx_monotone (u v : R) : u <= v -> (charIdx u <= charIdx v)%Z.
Proof.
  intros Huv. unfold charIdx. rewrite ramp_last.
  apply Zfloor_le.
  pose proof (norm_monotone u v Huv). lra.
Qed.

Lemma contribution_nonneg (cx cy : nat) (b : Blob.t) : 0 <= contribution cx cy b.
Proof.
  unfold contribution. cbv zeta.
  set (dx := INR cx - Blob.x b).
  set (dy := (INR cy - Blob.y b) * 2.2).
  set (r := Blob.radius b).
  apply Rmult_le_pos.
  - nra.
  - apply Rlt_le, Rinv_0_lt_compat. nra.
Qed.

Lemma fold_contribution_ge (cx cy : nat) (bs : list Blob.t) (acc : R) :
  acc <= fold_left (fun a b => a + contribution cx cy b) bs acc.
Proof.
  revert acc. induction bs as [| b bs IH]; intros acc; simpl.
  - lra.
  - pose proof (contribution_nonneg cx cy b). pose proof (IH (acc + contribution cx cy b)). lra.
Qed.

Lemma sumField_single (b : Blob.t) (cx cy : nat) :
  sumField [b] cx cy = contribution cx cy b.
Proof. unfold sumField. simpl. lra. Qed.

Lemma updateBlob_x_range (t : R) (b : Blob.t) : 9 <= Blob.x (updateBlob t b) <= 151.
Proof.
  unfold updateBlob. cbn [Blob.x]. rewrite INR_width.
  pose proof (SIN_bound (t * Blob.speed b + Blob.offset b)) as [? ?].
  pose proof (COS_bound (t * 0.2 * Blob.speed b)) as [? ?].
  lra.
Qed.

Lemma updateBlob_y_range (t : R) (b : Blob.t) : 0.4 <= Blob.y (updateBlob t b) <= 55.6.
Proof.
  unfold updateBlob. cbn [Blob.y]. rewrite INR_height.
  pose proof (COS_bound (t * Blob.speed b * 0.8 + Blob.offset b)) as [? ?].
  pose proof (SIN_bound (t * 0.3 * Blob.speed b)) as [? ?].
  lra.
Qed.

Lemma updateBlob_radius_range (t : R) (b : Blob.t) : 6 <= Blob.radius (updateBlob t b) <= 12.
Proof.
  unfold updateBlob. cbn [Blob.radius].
  pose proof (SIN_bound (t * 3 + Blob.offset b)) as [? ?].
  lra.
Qed.

Lemma renderFrame_time (w : World) : time (renderFrame w) = time w + 0.005.
Proof. unfold renderFrame. destruct (preRef w); reflexivity. Qed.

Lemma renderFrame_blobs (w : World) :
  blobs (renderFrame w) = map (updateBlob (time w + 0.005)) (blobs w).
Proof. unfold renderFrame. destruct (preRef w); reflexivity. Qed.

Lemma scenario_center (kx ky speed offset : R) :
  sumField [scenario_blob kx ky speed offset] 80 28 = 31.25.
Proof.
  rewrite sumField_single. unfold contribution, scenario_blob. cbn [Blob.x Blob.y Blob.radius].
  inr_literals.
  replace ((80 - 80) * (80 - 80) + (28 - 28) * 2.2 * ((28 - 28) * 2.2) + 8) with 8 by lra.
  lra.
Qed.

Lemma scenario_far (kx ky speed offset : R) :
  sumField [scenario_blob kx ky speed offset] 110 28 = 250 / 908.
Proof.
  rewrite sumField_single. unfold contribution, scenario_blob. cbn [Blob.x Blob.y Blob.radius].
  inr_literals.
  replace ((110 - 80) * (110 - 80) + (28 - 28) * 2.2 * ((28 - 28) * 2.2) + 8) with 908 by lra.
  lra.
Qed.

(** The loops below are reasoned about for arbitrary bounds; the grid
    dimensions are not unfolded by [simpl] or unification from here on. *)
#[global] Opaque width height numBlobs.

(** ** Arrays *)

Lemma array_get_nil {A : Type} (i : nat) : array_get (@nil (option A)) i = None.
Proof. unfold array_get. destruct i; reflexivity. Qed.

Lemma array_get_set_same {A : Type} (a : list (option A)) (i : nat) (v : option A) :
  array_get (array_set a i v) i = v.
Proof.
  unfold array_get. revert a.
  induction i as [| i IH]; intros [| e a]; simpl; auto.
Qed.

Lemma array_get_set_other {A : Type} (a : list (option A)) (i j : nat) (v : option A) :
  i <> j -> array_get (array_set a i v) j = array_get a j.
Proof.
  unfold array_get. revert a j.
  induction i as [| i IH]; intros [| e a] [| j] Hij; simpl; try congruence.
  - destruct j; reflexivity.
  - rewrite IH by congruence. destruct j; reflexivity.
  - apply IH. congruence.
Qed.

Lemma array_set_length {A : Type} (a : list (option A)) (i : nat) (v : option A) :
  (i < List.length a)%nat -> List.length (array_set a i v) = List.length a.
Proof.
  revert a. induction i as [| i IH]; intros [| e a] Hi; simpl in *; try lia.
  rewrite IH by lia. reflexivity.
Qed.

(** ** The fill loops *)

Section Fill.
Variable bs : list Blob.t.

Lemma cells_stores (cy k : nat) (st : list (option ascii) * nat) :
  snd (fold_left (cell bs cy) (seq 0 k) st) = (snd st + k)%nat.
Proof.
  induction k as [| k IH].
  - simpl. lia.
  - rewrite seq_S, fold_left_app. simpl. rewrite IH. lia.
Qed.

Lemma cells_written (cy k : nat) (st : list (option ascii) * nat) (cx : nat) :
  (cx < k)%nat ->
  array_get (fst (fold_left (cell bs cy) (seq 0 k) st)) (cx + cy * width)
  = glyph bs cx cy.
Proof.
  induction k as [| k IH]; intros Hcx; [lia |].
  rewrite seq_S, fold_left_app. simpl.
  destruct (Nat.eq_dec cx k) as [-> | Hne].
  - apply array_get_set_same.
  - rewrite array_get_set_other by lia. apply IH. lia.
Qed.

Lemma cells_untouched (cy k : nat) (st : list (option ascii) * nat) (j : nat) :
  (forall cx, (cx < k)%nat -> j <> (cx + cy * width)%nat) ->
  array_get (fst (fold_left (cell bs cy) (seq 0 k) st)) j = array_get (fst st) j.
Proof.
  induction k as [| k IH]; intros Hj; [reflexivity |].
  rewrite seq_S, fold_left_app. simpl.
  rewrite array_get_set_other.
  - apply IH. intros cx Hcx. apply Hj. lia.
  - intros Heq. apply (Hj k); [lia | congruence].
Qed.

Lemma cells_length (cy k : nat) (st : list (option ascii) * nat) :
  (k + cy * width <= List.length (fst st))%nat ->
  List.length (fst (fold_left (cell bs cy) (seq 0 k) st)) = List.length (fst st).
Proof.
  induction k as [| k IH]; intros Hk; [reflexivity |].
  rewrite seq_S, fold_left_app. simpl.
  rewrite array_set_length; rewrite IH; lia.
Qed.

Lemma rows_stores (k : nat) (st : list (option ascii) * nat) :
  snd (fold_left (row bs) (seq 0 k) st) = (snd st + k * width)%nat.
Proof.
  induction k as [| k IH].
  - simpl. lia.
  - rewrite seq_S, fold_left_app. simpl. unfold row at 1.
    rewrite cells_stores, IH. lia.
Qed.

Lemma rows_written (k : nat) (st : list (option ascii) * nat) (cx cy : nat) :
  (cx < width)%nat -> (cy < k)%nat ->
  array_get (fst (fold_left (row bs) (seq 0 k) st)) (cx + cy * width)
  = glyph bs cx cy.
Proof.
  intros Hcx. induction k as [| k IH]; intros Hcy; [lia |].
  rewrite seq_S, fold_left_app. simpl. unfold row at 1.
  destruct (Nat.eq_dec cy k) as [-> | Hne].
  - apply cells_written. exact Hcx.
  - rewrite cells_untouched.
    + apply IH. lia.
    + intros cx' Hcx'. nia.
Qed.

Lemma rows_length (k : nat) (st : list (option ascii) * nat) :
  (k * width <= List.length (fst st))%nat ->
  List.length (fst (fold_left (row bs) (seq 0 k) st)) = List.length (fst st).
Proof.
  induction k as [| k IH]; intros Hk; [reflexivity |].
  rewrite seq_S, fold_left_app. simpl. unfold row at 1.
  rewrite cells_length; rewrite IH; lia.
Qed.

Lemma fill_written (st : list (option ascii) * nat) (cx cy : nat) :
  (cx < width)%nat -> (cy < height)%nat ->
  array_get (fst (fill bs st)) (cx + cy * width) = glyph bs cx cy.
Proof. intros. unfold fill. apply rows_written; assumption. Qed.

Lemma fill_stores (st : list (option ascii) * nat) :
  snd (fill bs st) = (snd st + width * height)%nat.
Proof. unfold fill. rewrite rows_stores. lia. Qed.

Lemma fill_length (st : list (option ascii) * nat) :
  List.length (fst st) = (width * height)%nat ->
  List.length (fst (fill bs st)) = (width * height)%nat.
Proof. intros Hlen. unfold fill. rewrite rows_length; lia. Qed.
End Fill.

(** ** The glyph ramp *)

Lemma ramp_lookup (i : Z) :
  (0 <= i <= 18)%Z -> exists c, char_at chars i = Some c /\ Ascii.eqb c newline = false.
Proof.
  intros Hi.
  assert (Hn : exists n, i = Z.of_nat n /\ (n <= 18)%nat)
    by (exists (Z.to_nat i); lia).
  destruct Hn as [n [-> Hn]].
  do 19 (destruct n as [| n]; [eexists; split; reflexivity |]).
  lia.
Qed.

Lemma glyph_defined (bs : list Blob.t) (cx cy : nat) :
  exists c, glyph bs cx cy = Some c /\ Ascii.eqb c newline = false.
Proof. unfold glyph. apply ramp_lookup, charIdx_range. Qed.

(** ** Serialization *)

Lemma count_char_app (c : ascii) (s1 s2 : string) :
  count_char c (s1 ++ s2) = (count_char c s1 + count_char c s2)%nat.
Proof. induction s1 as [| a s1 IH]; simpl; [reflexivity | rewrite IH; lia]. Qed.

Lemma glyph_count_app (s1 s2 : string) :
  glyph_count (s1 ++ s2) = (glyph_count s1 + glyph_count s2)%nat.
Proof. induction s1 as [| a s1 IH]; simpl; [reflexivity | rewrite IH; lia]. Qed.

Lemma string_length_app (s1 s2 : string) :
  String.length (s1 ++ s2) = (String.length s1 + String.length s2)%nat.
Proof. induction s1 as [| a s1 IH]; simpl; [reflexivity | rewrite IH; lia]. Qed.

Section Serialize.
Variable buf : list (option ascii).

Lemma row_text_counts (cy k : nat) (out : string) :
  (forall cx, (cx < k)%nat ->
     exists c, array_get buf (cx + cy * width) = Some c /\ Ascii.eqb c newline = false) ->
  let out' := fold_left (append_cell buf cy) (seq 0 k) out in
  line_breaks out' = line_breaks out
  /\ glyph_count out' = (glyph_count out + k)%nat
  /\ String.length out' = (String.length out + k)%nat.
Proof.
  induction k as [| k IH]; intros Hdef; cbv zeta.
  - simpl. repeat split; lia.
  - rewrite seq_S, fold_left_app. simpl.
    destruct IH as (IH1 & IH2 & IH3); [intros; apply Hdef; lia |].
    destruct (Hdef k) as (c & Hc & Hnl); [lia |].
    unfold append_cell at 1 3 5. rewrite Hc. simpl text_of.
    unfold line_breaks in *.
    rewrite count_char_app, glyph_count_app, string_length_app, IH1, IH2, IH3.
    simpl. rewrite Hnl. repeat split; lia.
Qed.

Lemma serialize_row_counts (cy : nat) (out : string) :
  cells_defined buf -> (cy < height)%nat ->
  line_breaks (serialize_row buf out cy) = S (line_breaks out)
  /\ glyph_count (serialize_row buf out cy) = (glyph_count out + width)%nat
  /\ String.length (serialize_row buf out cy) = (String.length out + width + 1)%nat.
Proof.
  intros Hdef Hcy. unfold serialize_row.
  destruct (row_text_counts cy width out) as (H1 & H2 & H3);
    [intros; apply Hdef; assumption |].
    unfold line_breaks in *.
  rewrite count_char_app, glyph_count_app, string_length_app, H1, H2, H3.
  simpl. repeat split; lia.
Qed.

Lemma serialize_rows_counts (k : nat) :
  cells_defined buf -> (k <= height)%nat ->
  let out := fold_left (serialize_row buf) (seq 0 k) EmptyString in
  line_breaks out = k
  /\ glyph_count out = (k * width)%nat
  /\ String.length out = (k * (width + 1))%nat.
Proof.
  intros Hdef. induction k as [| k IH]; intros Hk; cbv zeta.
  - repeat split; reflexivity.
  - rewrite seq_S, fold_left_app. simpl.
    destruct IH as (IH1 & IH2 & IH3); [lia |].
    destruct (serialize_row_counts k (fold_left (serialize_row buf) (seq 0 k) EmptyString))
      as (H1 & H2 & H3); [assumption | lia |].
    rewrite H1, H2, H3, IH1, IH2, IH3. repeat split; lia.
Qed.

Lemma serialize_counts :
  cells_defined buf ->
  line_breaks (serialize buf) = height
  /\ glyph_count (serialize buf) = (width * height)%nat
  /\ String.length (serialize buf) = ((width + 1) * height)%nat.
Proof.
  intros Hdef. unfold serialize.
  destruct (serialize_rows_counts height Hdef (Nat.le_refl _)) as (H1 & H2 & H3).
  rewrite H1, H2, H3. repeat split; lia.
Qed.
End Serialize.

(** ** One call of [renderFrame], field by field *)

Lemma renderFrame_buffer (w : World) :
  buffer (renderFrame w)
  = fst (fill (map (updateBlob (time w + 0.005)) (blobs w)) (buffer w, stores w)).
Proof. unfold renderFrame. destruct (preRef w); reflexivity. Qed.

Lemma renderFrame_stores (w : World) :
  stores (renderFrame w) = (stores w + width * height)%nat.
Proof.
  transitivity
    (snd (fill (map (updateBlob (time w + 0.005)) (blobs w)) (buffer w, stores w))).
  - unfold renderFrame. destruct (preRef w); reflexivity.
  - apply fill_stores.
Qed.

Lemma renderFrame_preRef (w : World) :
  preRef (renderFrame w)
  = match preRef w with
    | Some _ => Some (serialize (buffer (renderFrame w)))
    | None => None
    end.
Proof. rewrite renderFrame_buffer. unfold renderFrame. destruct (preRef w); reflexivity. Qed.

Lemma renderFrame_presented (w : World) :
  presented (renderFrame w)
  = match preRef w with
    | Some _ => serialize (buffer (renderFrame w)) :: presented w
    | None => presented w
    end.
Proof. rewrite renderFrame_buffer. unfold renderFrame. destruct (preRef w); reflexivity. Qed.

Lemma renderFrame_host (w : World) :
  host (renderFrame w) = snd (requestAnimationFrame (host w)).
Proof. unfold renderFrame. destruct (preRef w); reflexivity. Qed.

Lemma renderFrame_animationId (w : World) :
  animationId (renderFrame w) = animationId w.
Proof. unfold renderFrame. destruct (preRef w); reflexivity. Qed.

Lemma renderFrame_cell (w : World) (cx cy : nat) :
  (cx < width)%nat -> (cy < height)%nat ->
  array_get (buffer (renderFrame w)) (cx + cy * width)
  = glyph (blobs (renderFrame w)) cx cy.
Proof.
  intros Hx Hy. rewrite renderFrame_buffer, renderFrame_blobs.
  apply fill_written; assumption.
Qed.

Lemma renderFrame_cells_defined (w : World) : cells_defined (buffer (renderFrame w)).
Proof.
  intros cx cy Hx Hy. rewrite renderFrame_cell by assumption. apply glyph_defined.
Qed.

Lemma renderFrame_buffer_length (w : World) :
  List.length (buffer w) = (width * height)%nat ->
  List.length (buffer (renderFrame w)) = (width * height)%nat.
Proof. intros Hlen. rewrite renderFrame_buffer. apply fill_length. exact Hlen. Qed.

(** ** The scheduler *)

Lemma animation_frame_unfold (w : World) :
  animation_frame w
  = fold_left (fun w' _ => renderFrame w') (callbacks (host w)) (taken w).
Proof. reflexivity. Qed.

Lemma animation_frame_idle (w : World) :
  callbacks (host w) = [] -> animation_frame w = w.
Proof.
  intros Hc. rewrite animation_frame_unfold, Hc. simpl. unfold taken.
  destruct w as [[rnd d l cbs] pre t bs buf id log n]. simpl in *. subst cbs. reflexivity.
Qed.

Lemma animation_frame_single (w : World) (id : nat) :
  callbacks (host w) = [id] -> animation_frame w = renderFrame (taken w).
Proof. intros Hc. rewrite animation_frame_unfold, Hc. reflexivity. Qed.

Lemma frames_idle (n : nat) (w : World) :
  callbacks (host w) = [] -> frames n w = w.
Proof.
  intros Hc. unfold frames. induction n as [| n IH]; simpl.
  - reflexivity.
  - rewrite IH. apply animation_frame_idle. exact Hc.
Qed.

Lemma frames_0 (w : World) : frames 0 w = w.
Proof. reflexivity. Qed.

Lemma frames_S (n : nat) (w : World) :
  frames (S n) w = animation_frame (frames n w).
Proof. reflexivity. Qed.

Lemma animation_frame_looping (w : World) :
  looping w ->
  looping (animation_frame w)
  /\ last_handle (host (animation_frame w)) = S (last_handle (host w))
  /\ animationId (animation_frame w) = animationId w
  /\ stores (animation_frame w) = (stores w + width * height)%nat
  /\ List.length (presented (animation_frame w))
     = (List.length (presented w) + if attached w then 1 else 0)%nat
  /\ attached (animation_frame w) = attached w.
Proof.
  intros Hl. rewrite (animation_frame_single w _ Hl).
  unfold looping.
  unfold attached.
  rewrite renderFrame_host, renderFrame_animationId, renderFrame_stores,
    renderFrame_presented, renderFrame_preRef.
  simpl. repeat split; try reflexivity.
  - destruct (preRef w); simpl; lia.
  - destruct (preRef w); reflexivity.
Qed.

(** ** Start and stop *)

Lemma new_blob_host (h : Host) :
  snd (new_blob h)
  = mkHost (random h) (5 + draws h) (last_handle h) (callbacks h).
Proof. reflexivity. Qed.

Lemma Array_from_S (n : nat) (h : Host) :
  Array_from (S n) h
  = (fst (new_blob h) :: fst (Array_from n (snd (new_blob h))),
     snd (Array_from n (snd (new_blob h)))).
Proof.
  cbn [Array_from].
  destruct (new_blob h) as [b h1]. cbn [fst snd].
  destruct (Array_from n h1) as [bs h2]. reflexivity.
Qed.

Lemma Array_from_host (n : nat) (h : Host) :
  snd (Array_from n h)
  = mkHost (random h) (5 * n + draws h) (last_handle h) (callbacks h).
Proof.
  revert h. induction n as [| n IH]; intros h.
  - destruct h as [rnd d l cbs]. reflexivity.
  - rewrite Array_from_S. cbn [snd]. rewrite IH, new_blob_host. cbn [random draws last_handle callbacks].
    f_equal. lia.
Qed.

Lemma Array_from_length (n : nat) (h : Host) :
  List.length (fst (Array_from n h)) = n.
Proof.
  revert h. induction n as [| n IH]; intros h; [reflexivity |].
  rewrite Array_from_S. cbn [fst List.length]. rewrite IH. reflexivity.
Qed.

Lemma start_unfold (h : Host) (pre : option string) :
  start h pre
  = mkWorld (snd (requestAnimationFrame (snd (Array_from numBlobs h))))
            pre 0 (fst (Array_from numBlobs h)) (new_Array (width * height))
            (S (last_handle h)) [] 0.
Proof.
  unfold start.
  pose proof (Array_from_host numBlobs h) as Hh.
  destruct (Array_from numBlobs h) as [bs h1]. simpl in *. subst h1. reflexivity.
Qed.

Lemma start_host (h : Host) (pre : option string) :
  host (start h pre)
  = mkHost (random h) (5 * numBlobs + draws h) (S (last_handle h))
           (callbacks h ++ [S (last_handle h)]).
Proof.
  rewrite start_unfold. cbn [host]. unfold requestAnimationFrame. cbn [snd].
  rewrite Array_from_host. reflexivity.
Qed.

Lemma start_looping (rnd : nat -> R) (d l : nat) (pre : option string) :
  looping (start (mkHost rnd d l []) pre).
Proof. unfold looping. rewrite start_host. reflexivity. Qed.

Lemma stop_start_idle (rnd : nat -> R) (d l : nat) (pre : option string) :
  callbacks (host (stop (start (mkHost rnd d l []) pre))) = [].
Proof.
  unfold stop. cbn [host]. rewrite start_host, start_unfold.
  cbn [animationId last_handle]. unfold cancelAnimationFrame. cbn [callbacks app remove].
  destruct (Nat.eq_dec (S l) (S l)); [reflexivity | congruence].
Qed.

Lemma frames_after_start (rnd : nat -> R) (d l : nat) (pre : option string) (n : nat) :
  let w := frames n (start (mkHost rnd d l []) pre) in
  looping w
  /\ last_handle (host w) = (S l + n)%nat
  /\ animationId w = S l
  /\ stores w = (n * (width * height))%nat
  /\ List.length (presented w) = (if attached w then n else 0)%nat
  /\ attached w = match pre with Some _ => true | None => false end.
Proof.
  induction n as [| n IH]; cbv zeta.
  - rewrite frames_0. split; [apply start_looping |].
    rewrite start_host. unfold attached. rewrite start_unfold.
    cbn [last_handle animationId stores presented preRef List.length].
    repeat split; try lia. destruct pre; reflexivity.
  - rewrite frames_S. cbv zeta in IH.
    destruct IH as (Hl & Hh & Hid & Hst & Hpr & Hat).
    destruct (animation_frame_looping _ Hl) as (Hl' & Hh' & Hid' & Hst' & Hpr' & Hat').
    rewrite Hh', Hid', Hst', Hpr', Hat', Hh, Hid, Hst, Hpr.
    repeat split; try assumption; try lia.
    destruct (attached (frames n _)); lia.
Qed.

Lemma stop_stale (w : World) :
  looping w -> stale w ->
  looping (stop w) /\ host (stop w) = host w.
Proof.
  unfold looping, stale. intros Hl Hs.
  assert (Hh : cancelAnimationFrame (animationId w) (host w) = host w).
  { unfold cancelAnimationFrame. rewrite Hl. cbn [remove].
    destruct (Nat.eq_dec (animationId w) (last_handle (host w))) as [E | _]; [lia |].
    rewrite <- Hl. destruct (host w) as [rnd d l cbs]. reflexivity. }
  unfold stop. cbn [host]. rewrite Hh. split; [assumption | reflexivity].
Qed.

Lemma frames_looping (w : World) (m : nat) :
  looping w ->
  looping (frames m w)
  /\ stores (frames m w) = (stores w + m * (width * height))%nat
  /\ List.length (presented (frames m w))
     = (List.length (presented w) + if attached w then m else 0)%nat
  /\ attached (frames m w) = attached w.
Proof.
  intros Hl. induction m as [| m IH].
  - rewrite frames_0. repeat split; try assumption; try lia.
    destruct (attached w); lia.
  - rewrite frames_S. destruct IH as (Hl' & Hst & Hpr & Hat).
    destruct (animation_frame_looping _ Hl') as (Hl'' & _ & _ & Hst' & Hpr' & Hat').
    rewrite Hst', Hpr', Hat', Hst, Hpr, Hat.
    repeat split; try assumption; try lia.
    destruct (attached w); lia.
Qed.

(** ** What a tick depends on *)

Lemma updateBlob_params (t : R) (b : Blob.t) : params (updateBlob t b) = params b.
Proof. reflexivity. Qed.

Lemma contribution_params (t : R) (cx cy : nat) (b1 b2 : Blob.t) :
  params b1 = params b2 ->
  contribution cx cy (updateBlob t b1) = contribution cx cy (updateBlob t b2).
Proof.
  unfold params. intros Hp. injection Hp as Hs Ho.
  unfold contribution, updateBlob. cbn [Blob.x Blob.y Blob.radius].
  rewrite Hs, Ho. reflexivity.
Qed.

Lemma sumField_params (t : R) (cx cy : nat) (bs1 bs2 : list Blob.t) :
  map params bs1 = map params bs2 ->
  sumField (map (updateBlob t) bs1) cx cy = sumField (map (updateBlob t) bs2) cx cy.
Proof.
  unfold sumField. generalize 0 as acc. revert bs2.
  induction bs1 as [| b1 bs1 IH]; intros [| b2 bs2] acc Hp; cbn [map] in Hp;
    try discriminate.
  - reflexivity.
  - assert (Hb : params b1 = params b2) by congruence.
    assert (Hrest : map params bs1 = map params bs2) by congruence.
    cbn [map fold_left].
    rewrite (contribution_params t cx cy b1 b2 Hb). apply IH. exact Hrest.
Qed.

Lemma map_params_update (t : R) (bs : list Blob.t) :
  map params (map (updateBlob t) bs) = map params bs.
Proof. rewrite map_map. apply map_ext. intros b. apply updateBlob_params. Qed.

Lemma fold_left_seq_ext {A : Type} (f g : A -> nat -> A) (k : nat) (a : A) :
  (forall acc i, (i < k)%nat -> f acc i = g acc i) ->
  fold_left f (seq 0 k) a = fold_left g (seq 0 k) a.
Proof.
  induction k as [| k IH]; intros Hfg; [reflexivity |].
  rewrite seq_S, !fold_left_app. cbn [fold_left Nat.add].
  rewrite IH by (intros; apply Hfg; lia). apply Hfg. lia.
Qed.

Lemma serialize_ext (buf1 buf2 : list (option ascii)) :
  (forall cx cy, (cx < width)%nat -> (cy < height)%nat ->
     array_get buf1 (cx + cy * width) = array_get buf2 (cx + cy * width)) ->
  serialize buf1 = serialize buf2.
Proof.
  intros Hcells. unfold serialize.
  apply fold_left_seq_ext. intros out cy Hcy.
  unfold serialize_row. f_equal.
  apply fold_left_seq_ext. intros acc cx Hcx.
  unfold append_cell. rewrite Hcells by assumption. reflexivity.
Qed.

Lemma renderFrame_low_equiv (w1 w2 : World) :
  low_equiv w1 w2 -> low_equiv (renderFrame w1) (renderFrame w2).
Proof.
  intros (Ht & Hp & Ha & Hlog & Hcb).
  assert (Hout : serialize (buffer (renderFrame w1)) = serialize (buffer (renderFrame w2))).
  { apply serialize_ext. intros cx cy Hx Hy.
    rewrite !renderFrame_cell by assumption.
    unfold glyph. rewrite !renderFrame_blobs, Ht.
    rewrite (sumField_params _ cx cy _ _ Hp). reflexivity. }
  unfold low_equiv, attached in *.
  rewrite !renderFrame_time, !renderFrame_blobs, !map_params_update,
    !renderFrame_preRef, !renderFrame_presented, !renderFrame_host.
  unfold requestAnimationFrame. cbn [snd callbacks].
  rewrite !List.length_app, Hout, Hlog, Hcb, Ht.
  destruct (preRef w1), (preRef w2); try discriminate; repeat split; auto.
Qed.

Lemma taken_low_equiv (w1 w2 : World) :
  low_equiv w1 w2 -> low_equiv (taken w1) (taken w2).
Proof. intros (Ht & Hp & Ha & Hlog & Hcb). repeat split; assumption. Qed.

Lemma run_callbacks_low_equiv (due1 due2 : list nat) (w1 w2 : World) :
  List.length due1 = List.length due2 -> low_equiv w1 w2 ->
  low_equiv (fold_left (fun w' _ => renderFrame w') due1 w1)
            (fold_left (fun w' _ => renderFrame w') due2 w2).
Proof.
  revert due2 w1 w2.
  induction due1 as [| id1 due1 IH]; intros [| id2 due2] w1 w2 Hlen Hw;
    simpl in Hlen; try discriminate.
  - exact Hw.
  - cbn [fold_left]. apply IH; [lia | apply renderFrame_low_equiv, Hw].
Qed.

Lemma animation_frame_low_equiv (w1 w2 : World) :
  low_equiv w1 w2 -> low_equiv (animation_frame w1) (animation_frame w2).
Proof.
  intros Hw. rewrite !animation_frame_unfold.
  apply run_callbacks_low_equiv; [apply Hw | apply taken_low_equiv, Hw].
Qed.

Lemma frames_low_equiv (n : nat) (w1 w2 : World) :
  low_equiv w1 w2 -> low_equiv (frames n w1) (frames n w2).
Proof.
  intros Hw. induction n as [| n IH]; [exact Hw |].
  rewrite !frames_S. apply animation_frame_low_equiv, IH.
Qed.

Lemma renderFrame_draws (w : World) :
  draws (host (renderFrame w)) = draws (host w).
Proof. rewrite renderFrame_host. reflexivity. Qed.

Lemma run_callbacks_draws (due : list nat) (w : World) :
  draws (host (fold_left (fun w' _ => renderFrame w') due w)) = draws (host w).
Proof.
  revert w. induction due as [| id due IH]; intros w; [reflexivity |].
  cbn [fold_left]. rewrite IH. apply renderFrame_draws.
Qed.

Lemma frames_draws (n : nat) (w : World) :
  draws (host (frames n w)) = draws (host w).
Proof.
  induction n as [| n IH]; [reflexivity |].
  rewrite frames_S, animation_frame_unfold, run_callbacks_draws. exact IH.
Qed.

Lemma start_low_equiv (h1 h2 : Host) (pre1 pre2 : string) :
  List.length (callbacks h1) = List.length (callbacks h2) ->
  map params (blobs (start h1 (Some pre1))) = map params (blobs (start h2 (Some pre2))) ->
  low_equiv (start h1 (Some pre1)) (start h2 (Some pre2)).
Proof.
  intros Hcb Hp. unfold low_equiv. rewrite !start_host.
  split; [| split; [exact Hp | split; [| split]]].
  - rewrite !start_unfold. reflexivity.
  - unfold attached. rewrite !start_unfold. reflexivity.
  - rewrite !start_unfold. reflexivity.
  - cbn [callbacks]. rewrite !List.length_app. cbn [List.length]. lia.
Qed.

(** ** The trajectory as the specification writes it *)

Lemma updateBlob_closed_form (t : R) (b : Blob.t) :
  Blob.x (updateBlob t b)
  = 80 + sin (t * Blob.speed b + Blob.offset b) * 56 + cos (t * 0.2 * Blob.speed b) * 15
  /\ Blob.y (updateBlob t b)
     = 28 + cos (t * Blob.speed b * 0.8 + Blob.offset b) * 19.6
       + sin (t * 0.3 * Blob.speed b) * 8
  /\ Blob.radius (updateBlob t b) = 9 + 3 * sin (3 * t + Blob.offset b).
Proof.
  unfold updateBlob. cbn [Blob.x Blob.y Blob.radius].
  rewrite INR_width, INR_height.
  replace (160 / 2) with 80 by lra.
  replace (160 * 0.35) with 56 by lra.
  replace (56 / 2) with 28 by lra.
  replace (56 * 0.35) with 19.6 by lra.
  replace (t * 3) with (3 * t) by lra.
  repeat split; lra.
Qed.

Lemma detach_looping (w : World) : looping w -> looping (detach w).
Proof. intros Hl. exact Hl. Qed.

Lemma stop_preserves (w : World) :
  stores (stop w) = stores w /\ presented (stop w) = presented w
  /\ attached (stop w) = attached w /\ buffer (stop w) = buffer w.
Proof. repeat split. Qed.

Lemma serialize_trailing_break (buf : list (option ascii)) :
  exists body, serialize buf = (body ++ String newline EmptyString)%string.
Proof.
  unfold serialize. rewrite height_val. change 56%nat with (S 55).
  rewrite seq_S, fold_left_app. cbn [fold_left]. unfold serialize_row at 1.
  eexists. reflexivity.
Qed.

Lemma example_world_first_frame :
  animation_frame example_world = renderFrame (taken example_world)
  /\ preRef (taken example_world) = Some EmptyString.
Proof.
  unfold example_world, fresh_host. split.
  - apply (animation_frame_single _ 1%nat). rewrite start_host. reflexivity.
  - rewrite start_unfold. reflexivity.
Qed.

Lemma other_source_same_params :
  map params (blobs (start (mkHost (constant_source 0) 0 0 []) (Some EmptyString)))
  = map params (blobs (start (mkHost other_source 5 3 []) (Some "x"%string))).
Proof. rewrite !start_unfold. cbn [blobs]. rewrite numBlobs_val. reflexivity. Qed.

Lemma other_source_differs :
  map Blob.kx (blobs (start (mkHost (constant_source 0) 0 0 []) (Some EmptyString)))
  <> map Blob.kx (blobs (start (mkHost other_source 5 3 []) (Some "x"%string))).
Proof.
  rewrite !start_unfold. cbn [blobs]. rewrite numBlobs_val.
  intros Heq. apply (f_equal (fun l => hd 0 l)) in Heq.
  change ((0 - 0.5) * 2 = (1 - 0.5) * 2) in Heq. lra.
Qed.

Lemma Forall2_update (P : Blob.t -> Blob.t -> Prop) (f : Blob.t -> Blob.t)
  (bs : list Blob.t) :
  (forall b, P b (f b)) -> Forall2 P bs (map f bs).
Proof. intros Hf. induction bs as [| b bs IH]; simpl; constructor; auto. Qed.

Lemma cell_of_index (idx : nat) :
  (idx < width * height)%nat ->
  (idx mod width < width)%nat /\ (idx / width < height)%nat
  /\ idx = (idx mod width + idx / width * width)%nat.
Proof.
  intros Hidx.
  assert (Hw : width <> 0%nat) by (rewrite width_val; discriminate).
  repeat split.
  - apply Nat.mod_upper_bound. exact Hw.
  - apply Nat.Div0.div_lt_upper_bound. exact Hidx.
  - pose proof (Nat.div_mod_eq idx width). lia.
Qed.

(** ** The layout of a frame, position by position *)

Lemma row_text_get (buf : list (option ascii)) (cy k : nat) (out : string) :
  (forall cx, (cx < k)%nat ->
     exists c, array_get buf (cx + cy * width) = Some c /\ Ascii.eqb c newline = false) ->
  let out' := fold_left (append_cell buf cy) (seq 0 k) out in
  (forall i, (i < String.length out)%nat -> String.get i out' = String.get i out)
  /\ (forall cx, (cx < k)%nat ->
        String.get (String.length out + cx) out' = array_get buf (cx + cy * width)).
Proof.
  induction k as [| k IH]; intros Hdef; cbv zeta.
  - split; [reflexivity | intros cx Hcx; lia].
  - rewrite seq_S, fold_left_app. cbn [fold_left Nat.add].
    assert (Hdef' : forall cx, (cx < k)%nat ->
              exists c, array_get buf (cx + cy * width) = Some c
                        /\ Ascii.eqb c newline = false)
      by (intros; apply Hdef; lia).
    destruct (IH Hdef') as (Hold & Hnew).
    destruct (row_text_counts buf cy k out Hdef') as (_ & _ & Hlen).
    cbv zeta in Hlen.
    set (prev := fold_left (append_cell buf cy) (seq 0 k) out) in *.
    destruct (Hdef k) as (c & Hc & _); [lia |].
    unfold append_cell at 1 2. rewrite Hc. cbn [text_of].
    split.
    + intros i Hi. rewrite <- append_correct1 by lia. apply Hold, Hi.
    + intros cx Hcx. destruct (Nat.eq_dec cx k) as [-> | Hne].
      * rewrite <- Hlen. rewrite Hc.
        change (String.length prev) with (0 + String.length prev)%nat.
        rewrite <- (append_correct2 prev (String c EmptyString) 0). reflexivity.
      * rewrite <- append_correct1 by lia. apply Hnew. lia.
Qed.

Lemma serialize_row_get (buf : list (option ascii)) (cy : nat) (out : string) :
  cells_defined buf -> (cy < height)%nat ->
  let out' := serialize_row buf out cy in
  (forall i, (i < String.length out)%nat -> String.get i out' = String.get i out)
  /\ (forall cx, (cx < width)%nat ->
        String.get (String.length out + cx) out' = array_get buf (cx + cy * width))
  /\ String.get (String.length out + width) out' = Some newline.
Proof.
  intros Hdef Hcy. cbv zeta. unfold serialize_row.
  assert (Hrow : forall cx, (cx < width)%nat ->
            exists c, array_get buf (cx + cy * width) = Some c
                      /\ Ascii.eqb c newline = false)
    by (intros; apply Hdef; assumption).
  destruct (row_text_get buf cy width out Hrow) as (Hold & Hnew).
  destruct (row_text_counts buf cy width out Hrow) as (_ & _ & Hlen).
  cbv zeta in Hlen, Hold, Hnew.
  set (cells := fold_left (append_cell buf cy) (seq 0 width) out) in *.
  repeat split.
  - intros i Hi. rewrite <- append_correct1 by lia. apply Hold, Hi.
  - intros cx Hcx. rewrite <- append_correct1 by lia. apply Hnew, Hcx.
  - rewrite <- Hlen.
    change (String.length cells) with (0 + String.length cells)%nat.
    rewrite <- (append_correct2 cells (String newline EmptyString) 0). reflexivity.
Qed.

Lemma serialize_rows_get (buf : list (option ascii)) (k : nat) :
  cells_defined buf -> (k <= height)%nat ->
  let out := fold_left (serialize_row buf) (seq 0 k) EmptyString in
  forall cy, (cy < k)%nat ->
    (forall cx, (cx < width)%nat ->
       String.get (cx + cy * (width + 1)) out = array_get buf (cx + cy * width))
    /\ String.get (width + cy * (width + 1)) out = Some newline.
Proof.
  intros Hdef. induction k as [| k IH]; intros Hk; cbv zeta; intros cy Hcy; [lia |].
  rewrite seq_S, fold_left_app. cbn [fold_left Nat.add].
  destruct (serialize_rows_counts buf k Hdef) as (_ & _ & Hlen); [lia |].
  cbv zeta in Hlen.
  set (prev := fold_left (serialize_row buf) (seq 0 k) EmptyString) in *.
  destruct (serialize_row_get buf k prev Hdef) as (Hold & Hnew & Hbreak); [lia |].
  cbv zeta in Hold, Hnew, Hbreak.
  destruct (Nat.eq_dec cy k) as [-> | Hne].
  - split.
    + intros cx Hcx. rewrite <- (Hnew cx Hcx). f_equal. lia.
    + rewrite <- Hbreak. f_equal. lia.
  - assert (Hcy' : (cy < k)%nat) by lia.
    destruct (IH ltac:(lia) cy Hcy') as (Hcells & Hnl).
    split.
    + intros cx Hcx. rewrite Hold by nia. apply Hcells, Hcx.
    + rewrite Hold by nia. exact Hnl.
Qed.

(** ** What never changes while the loop runs *)

Lemma run_callbacks_shape (due : list nat) (w : World) :
  List.length (blobs (fold_left (fun w' _ => renderFrame w') due w))
  = List.length (blobs w)
  /\ (List.length (buffer w) = (width * height)%nat ->
      List.length (buffer (fold_left (fun w' _ => renderFrame w') due w))
      = (width * height)%nat).
Proof.
  revert w. induction due as [| id due IH]; intros w; [split; auto |].
  cbn [fold_left]. destruct (IH (renderFrame w)) as (Hb & Hbuf).
  rewrite Hb, renderFrame_blobs, length_map. split; [reflexivity |].
  intros Hlen. apply Hbuf, renderFrame_buffer_length, Hlen.
Qed.

(** * The properties of the specification *)

(** X2.  The number of blobs is fixed at creation: after any number of
    frames there are [numBlobs] of them. *)
Lemma blob_count_fixed (rnd : nat -> R) (d l : nat) (pre : option string) (n : nat) :
  List.length (blobs (frames n (start (mkHost rnd d l []) pre))) = numBlobs.
Proof.
  induction n as [| n IH].
  - rewrite frames_0, start_unfold. apply Array_from_length.
  - rewrite frames_S, animation_frame_unfold.
    destruct (run_callbacks_shape
                (callbacks (host (frames n (start (mkHost rnd d l []) pre))))
                (taken (frames n (start (mkHost rnd d l []) pre)))) as (Hb & _).
    rewrite Hb. exact IH.
Qed.

(** X3.  The dimensions of the buffer never change: after any number of
    frames it has [width * height] slots. *)
Lemma buffer_dimensions_fixed (rnd : nat -> R) (d l : nat) (pre : option string)
  (n : nat) :
  List.length (buffer (frames n (start (mkHost rnd d l []) pre)))
  = (width * height)%nat.
Proof.
  induction n as [| n IH].
  - rewrite frames_0, start_unfold. apply repeat_length.
  - rewrite frames_S, animation_frame_unfold.
    destruct (run_callbacks_shape
                (callbacks (host (frames n (start (mkHost rnd d l []) pre))))
                (taken (frames n (start (mkHost rnd d l []) pre)))) as (_ & Hbuf).
    apply Hbuf. exact IH.
Qed.

(** X1.  Stopping before the first tick: the handle the cleanup cancels is the
    pending one, so no callback ever runs, nothing is stored into the buffer
    and nothing is shown, however many frames the host presents. *)
Lemma stop_before_first_tick (rnd : nat -> R) (d l : nat) (pre : option string)
  (m : nat) :
  let w := frames m (stop (start (mkHost rnd d l []) pre)) in
  w = stop (start (mkHost rnd d l []) pre)
  /\ stores w = 0%nat
  /\ presented w = []
  /\ preRef w = pre
  /\ buffer w = new_Array (width * height).
Proof.
  cbv zeta. rewrite frames_idle by apply stop_start_idle.
  split; [reflexivity |]. unfold stop. rewrite start_unfold. repeat split.
Qed.

(** C1 (defect of the code).  The cleanup cancels [animationId], the handle
    of the first request only, and [renderFrame] never records the handles
    of the requests it makes itself.  So once at least one tick has run
    ([S n] frames after start), [stop] cancels nothing: the loop is still
    alive, and each of the next [m] frames stores [width * height] glyphs
    into the buffer and, while the element is attached, assigns one more
    frame to [innerText].  With the element detached the buffer stores go on
    all the same. *)
Theorem stop_after_tick_keeps_writing (rnd : nat -> R) (d l : nat) (pre : string)
  (n m : nat) :
  let w := stop (frames (S n) (start (mkHost rnd d l []) (Some pre))) in
  looping w
  /\ stores (frames m w) = (stores w + m * (width * height))%nat
  /\ List.length (presented (frames m w)) = (List.length (presented w) + m)%nat
  /\ stores (frames m (detach w)) = (stores w + m * (width * height))%nat.
Proof.
  cbv zeta.
  destruct (frames_after_start rnd d l (Some pre) (S n))
    as (Hl & Hh & Hid & _ & _ & Hat).
  set (w1 := frames (S n) (start (mkHost rnd d l []) (Some pre))) in *.
  assert (Hs : stale w1) by (unfold stale; lia).
  destruct (stop_stale w1 Hl Hs) as (Hl' & _).
  destruct (frames_looping (stop w1) m Hl') as (_ & Hst & Hpr & _).
  destruct (frames_looping (detach (stop w1)) m (detach_looping _ Hl')) as (_ & Hst' & _).
  assert (Hat' : attached (stop w1) = true) by exact Hat.
  rewrite Hat' in Hpr.
  repeat split; assumption.
Qed.

(** C2 (as amended).  Whatever the field values, the string a tick
    serializes, which is what it assigns to [innerText] when the element is
    attached, holds exactly [width * height] glyph characters and exactly
    [height] line breaks, one after every row, the last row included: row
    [cy] fills the [width] positions from [cy * (width + 1)] on with the
    glyphs of its cells, none of them a line break, and the position right
    after them holds a line break; so the string ends in a line break. *)
Theorem frame_layout (w : World) :
  let out := serialize (buffer (renderFrame w)) in
  preRef (renderFrame w) = match preRef w with Some _ => Some out | None => None end
  /\ presented (renderFrame w)
     = match preRef w with Some _ => out :: presented w | None => presented w end
  /\ glyph_count out = (width * height)%nat
  /\ line_breaks out = height
  /\ String.length out = ((width + 1) * height)%nat
  /\ (exists body, out = (body ++ String newline EmptyString)%string)
  /\ Forall (fun cy =>
               Forall (fun cx =>
                         exists c,
                           String.get (cx + cy * (width + 1)) out = Some c
                           /\ glyph (blobs (renderFrame w)) cx cy = Some c
                           /\ Ascii.eqb c newline = false)
                      (seq 0 width)
               /\ String.get (width + cy * (width + 1)) out = Some newline)
            (seq 0 height).
Proof.
  cbv zeta.
  destruct (serialize_counts _ (renderFrame_cells_defined w)) as (Hnl & Hgl & Hlen).
  split; [apply renderFrame_preRef |].
  split; [apply renderFrame_presented |].
  split; [exact Hgl |]. split; [exact Hnl |]. split; [exact Hlen |].
  split; [apply serialize_trailing_break |].
  apply Forall_forall. intros cy Hcy. apply in_seq in Hcy.
  destruct (serialize_rows_get (buffer (renderFrame w)) height
              (renderFrame_cells_defined w) (Nat.le_refl _) cy ltac:(lia))
    as (Hcells & Hbreak).
  split; [| exact Hbreak].
  apply Forall_forall. intros cx Hcx. apply in_seq in Hcx.
  destruct (glyph_defined (blobs (renderFrame w)) cx cy) as (c & Hc & Hne).
  exists c. split; [| split; [exact Hc | exact Hne]].
  unfold serialize. rewrite (Hcells cx ltac:(lia)).
  rewrite renderFrame_cell by lia. exact Hc.
Qed.

(** C2 as stated fails: the first frame shown after start has [height]
    line breaks, 56 of them, not [height - 1]. *)
Lemma frame_line_breaks_counterexample :
  exists out,
    preRef (animation_frame example_world) = Some out
    /\ line_breaks out = 56%nat
    /\ Nat.eqb (line_breaks out) (height - 1) = false.
Proof.
  destruct example_world_first_frame as (Hfr & Hpre).
  pose proof (renderFrame_preRef (taken example_world)) as Hp.
  destruct (serialize_counts _ (renderFrame_cells_defined (taken example_world)))
    as (Hnl & _).
  rewrite Hpre in Hp. rewrite Hfr.
  eexists. split; [exact Hp |]. rewrite Hnl, height_val. split; reflexivity.
Qed.

(** C3.  The scenario of the specification: a single blob of radius 10 on
    the cell (80, 28).  At that cell the field sum is 31.25, [norm] is 1 and
    the glyph index is the last of the ramp, the solid character; thirty
    columns to the right the field sum is 250 / 908, about 0.275 and below
    the threshold 0.95, [norm] is 0 and the glyph is the sparsest one, at
    index 0. *)
Theorem single_blob_scenario (kx ky speed offset : R) :
  let bs := [scenario_blob kx ky speed offset] in
  sumField bs 80 28 = 31.25
  /\ norm (sumField bs 80 28) = 1
  /\ charIdx (sumField bs 80 28) = (Z.of_nat (String.length chars) - 1)%Z
  /\ glyph bs 80 28 = Some "@"%char
  /\ sumField bs 110 28 = 250 / (900 + 8)
  /\ 0.275 < sumField bs 110 28 < 0.276
  /\ sumField bs 110 28 < 0.95
  /\ norm (sumField bs 110 28) = 0
  /\ charIdx (sumField bs 110 28) = 0%Z
  /\ glyph bs 110 28 = Some " "%char.
Proof.
  cbv zeta.
  assert (Hn1 : norm 31.25 = 1) by (apply norm_saturated; lra).
  assert (Hn0 : norm (250 / 908) = 0) by (apply norm_below_threshold; lra).
  assert (Hi1 : charIdx 31.25 = 18%Z).
  { unfold charIdx. rewrite Hn1, ramp_last. apply Zfloor_eq. lra. }
  assert (Hi0 : charIdx (250 / 908) = 0%Z).
  { unfold charIdx. rewrite Hn0, ramp_last. apply Zfloor_eq. lra. }
  unfold glyph. rewrite scenario_center, scenario_far, Hn1, Hn0, Hi1, Hi0.
  repeat split; try reflexivity; lra.
Qed.

(** C4.  At one tick (one list of blobs), a cell whose field sum is strictly
    greater than another's gets a glyph index that is greater or equal: the
    mapping from field sum to ramp index is non-decreasing. *)
Theorem glyph_index_monotone (bs : list Blob.t) (xa ya xb yb : nat) :
  sumField bs xa ya > sumField bs xb yb ->
  (charIdx (sumField bs xa ya) >= charIdx (sumField bs xb yb))%Z.
Proof.
  intros Hgt. apply Z.le_ge, charIdx_monotone. lra.
Qed.

(** The two cells of the scenario: the blob's own cell and the one thirty
    columns to its right. *)
Lemma glyph_index_monotone_witness :
  sumField [scenario_blob 0 0 0 0] 80 28 > sumField [scenario_blob 0 0 0 0] 110 28
  /\ (charIdx (sumField [scenario_blob 0 0 0 0] 80 28)
      >= charIdx (sumField [scenario_blob 0 0 0 0] 110 28))%Z.
Proof.
  assert (Hgt : sumField [scenario_blob 0 0 0 0] 80 28
                > sumField [scenario_blob 0 0 0 0] 110 28)
    by (rewrite scenario_center, scenario_far; lra).
  split; [exact Hgt | exact (glyph_index_monotone _ 80 28 110 28 Hgt)].
Defined.

(** C5.  Two runs of the loop whose blobs start with the same speeds and
    offsets show the same sequence of frames after any number of host
    frames, whatever their random sources, the draws already consumed, the
    handles in use and the previous content of the element; and the ticks
    consume no draw of [Math.random]: the count of draws after the run is
    the count right after start. *)
Theorem rendered_frames_deterministic (rnd1 rnd2 : nat -> R) (d1 d2 l1 l2 : nat)
  (pre1 pre2 : string) (n : nat) :
  let w1 := start (mkHost rnd1 d1 l1 []) (Some pre1) in
  let w2 := start (mkHost rnd2 d2 l2 []) (Some pre2) in
  map params (blobs w1) = map params (blobs w2) ->
  presented (frames n w1) = presented (frames n w2)
  /\ draws (host (frames n w1)) = draws (host w1)
  /\ draws (host (frames n w2)) = draws (host w2).
Proof.
  cbv zeta. intros Hp.
  assert (Hw : low_equiv (start (mkHost rnd1 d1 l1 []) (Some pre1))
                         (start (mkHost rnd2 d2 l2 []) (Some pre2)))
    by (apply start_low_equiv; [reflexivity | exact Hp]).
  destruct (frames_low_equiv n _ _ Hw) as (_ & _ & _ & Hlog & _).
  split; [exact Hlog |]. split; apply frames_draws.
Qed.

(** Three frames from two starts whose random sources, draws, handles and
    element contents differ, and whose blobs have the same speeds and
    offsets (and different [kx]). *)
Lemma rendered_frames_deterministic_witness :
  presented (frames 3 (start (mkHost (constant_source 0) 0 0 []) (Some EmptyString)))
  = presented (frames 3 (start (mkHost other_source 5 3 []) (Some "x"%string))).
Proof.
  exact (proj1 (rendered_frames_deterministic
                  (constant_source 0) other_source 0 5 0 3 EmptyString "x" 3
                  other_source_same_params)).
Defined.

(** C6.  After every tick every blob lies inside the grid: its [x] is in
    [[9, 151]], within [[0, width)], and its [y] in [[0.4, 55.6]], within
    [[0, height)]; the tick neither adds nor removes a blob. *)
Theorem blob_positions_in_grid (w : World) :
  Forall (fun b => (0 <= Blob.x b < INR width /\ 0 <= Blob.y b < INR height)
                   /\ (9 <= Blob.x b <= 151 /\ 0.4 <= Blob.y b <= 55.6))
         (blobs (renderFrame w))
  /\ List.length (blobs (renderFrame w)) = List.length (blobs w).
Proof.
  rewrite renderFrame_blobs. split.
  - apply Forall_map, Forall_forall. intros b _.
    pose proof (updateBlob_x_range (time w + 0.005) b).
    pose proof (updateBlob_y_range (time w + 0.005) b).
    rewrite INR_width, INR_height. lra.
  - apply length_map.
Qed.

(** C7.  The clock starts at zero; a tick first advances it by 0.005 and
    then gives every blob the position the closed forms [spec_x] and
    [spec_y] yield at the advanced clock from that blob's own [speed] and
    [offset], which the tick leaves as they were. *)
Theorem tick_clock_and_trajectories (h : Host) (pre : option string) (w : World) :
  time (start h pre) = 0
  /\ time (renderFrame w) = time w + 0.005
  /\ Forall2 (fun b b' =>
                Blob.x b' = spec_x (time (renderFrame w)) (Blob.speed b) (Blob.offset b)
                /\ Blob.y b' = spec_y (time (renderFrame w)) (Blob.speed b) (Blob.offset b)
                /\ Blob.speed b' = Blob.speed b
                /\ Blob.offset b' = Blob.offset b)
             (blobs w) (blobs (renderFrame w)).
Proof.
  split; [rewrite start_unfold; reflexivity |].
  split; [apply renderFrame_time |].
  rewrite renderFrame_blobs, renderFrame_time.
  apply Forall2_update. intros b.
  destruct (updateBlob_closed_form (time w + 0.005) b) as (Hx & Hy & _).
  unfold spec_x, spec_y, centerX, centerY, Ax, Ay, Ax2, Ay2.
  rewrite Hx, Hy. repeat split; reflexivity.
Qed.

(** C8.  After every tick every blob's radius is
    [baseRadius + amplitude * sin (3 * time + offset)] with base 9 and
    amplitude 3; it lies in [[6, 12]] and so is strictly positive. *)
Theorem blob_radius_positive (w : World) :
  Forall2 (fun b b' =>
             Blob.radius b' = spec_radius (time (renderFrame w)) (Blob.offset b)
             /\ baseRadius - amplitude <= Blob.radius b' <= baseRadius + amplitude
             /\ 6 <= Blob.radius b' <= 12
             /\ 0 < Blob.radius b')
          (blobs w) (blobs (renderFrame w)).
Proof.
  rewrite renderFrame_blobs, renderFrame_time.
  apply Forall2_update. intros b.
  destruct (updateBlob_closed_form (time w + 0.005) b) as (_ & _ & Hr).
  pose proof (updateBlob_radius_range (time w + 0.005) b).
  unfold spec_radius, baseRadius, amplitude. rewrite Hr at 1.
  repeat split; lra.
Qed.

(** C9.  For every list of blobs and every cell, each kernel contribution
    is non-negative and so is the field sum. *)
Theorem field_sum_nonneg (bs : list Blob.t) (cx cy : nat) :
  0 <= sumField bs cx cy
  /\ Forall (fun b => 0 <= contribution cx cy b) bs.
Proof.
  split.
  - unfold sumField. apply fold_contribution_ge.
  - apply Forall_forall. intros b _. apply contribution_nonneg.
Qed.

(** C10.  After every tick, every slot [idx] of the [width * height] buffer
    is the slot of one cell [(cx, cy)] of the grid; for that cell [norm] lies
    in [[0, 1]], the glyph index lies in [[0, chars.length - 1]], the ramp
    has a character at that index, and that character is what the slot
    holds. *)
Theorem every_cell_gets_a_ramp_glyph (w : World) (idx : nat) :
  (idx < width * height)%nat ->
  exists cx cy c,
    (cx < width)%nat /\ (cy < height)%nat /\ idx = (cx + cy * width)%nat
    /\ 0 <= norm (sumField (blobs (renderFrame w)) cx cy) <= 1
    /\ (0 <= charIdx (sumField (blobs (renderFrame w)) cx cy)
        <= Z.of_nat (String.length chars) - 1)%Z
    /\ String.get (Z.to_nat (charIdx (sumField (blobs (renderFrame w)) cx cy))) chars
       = Some c
    /\ array_get (buffer (renderFrame w)) idx = Some c.
Proof.
  intros Hidx.
  destruct (cell_of_index idx Hidx) as (Hx & Hy & Heq).
  set (cx := (idx mod width)%nat) in *. set (cy := (idx / width)%nat) in *.
  pose proof (charIdx_range (sumField (blobs (renderFrame w)) cx cy)) as Hr.
  destruct (ramp_lookup _ Hr) as (c & Hc & _).
  exists cx, cy, c.
  split; [exact Hx |]. split; [exact Hy |]. split; [exact Heq |].
  split; [apply norm_range |]. split; [exact Hr |].
  split.
  - unfold char_at in Hc.
    destruct (charIdx (sumField (blobs (renderFrame w)) cx cy) <? 0)%Z eqn:E;
      [apply Z.ltb_lt in E; lia | exact Hc].
  - rewrite Heq, renderFrame_cell by assumption. exact Hc.
Qed.

(** Slot 161, the cell (1, 1), after the first tick of the example world. *)
Lemma every_cell_gets_a_ramp_glyph_witness :
  exists cx cy c,
    (cx < width)%nat /\ (cy < height)%nat /\ 161%nat = (cx + cy * width)%nat
    /\ 0 <= norm (sumField (blobs (renderFrame example_world)) cx cy) <= 1
    /\ (0 <= charIdx (sumField (blobs (renderFrame example_world)) cx cy)
        <= Z.of_nat (String.length chars) - 1)%Z
    /\ String.get (Z.to_nat (charIdx (sumField (blobs (renderFrame example_world)) cx cy))) chars
       = Some c
    /\ array_get (buffer (renderFrame example_world)) 161 = Some c.
Proof.
  apply (every_cell_gets_a_ramp_glyph example_world 161).
  rewrite width_val, height_val. apply Nat.ltb_lt. reflexivity.
Defined.

(** * Further properties of the renderer *)

(** X4.  A frame is a rectangle of text: row [cy] occupies the [width]
    positions from [cy * (width + 1)] on, the character at column [cx] of
    that row is the glyph of the cell [(cx, cy)], and the row is followed by
    a line break. *)
Theorem frame_rows (w : World) (cx cy : nat) :
  (cx < width)%nat -> (cy < height)%nat ->
  String.get (cx + cy * (width + 1)) (serialize (buffer (renderFrame w)))
  = glyph (blobs (renderFrame w)) cx cy
  /\ String.get (width + cy * (width + 1)) (serialize (buffer (renderFrame w)))
     = Some newline.
Proof.
  intros Hcx Hcy.
  destruct (serialize_rows_get (buffer (renderFrame w)) height
              (renderFrame_cells_defined w) (Nat.le_refl _) cy Hcy) as (Hcells & Hnl).
  unfold serialize. split; [| exact Hnl].
  rewrite (Hcells cx Hcx). apply renderFrame_cell; assumption.
Qed.

(** The second row of the first frame of the example world: its column 1 and
    its line break. *)
Lemma frame_rows_witness :
  String.get (1 + 1 * (width + 1)) (serialize (buffer (renderFrame example_world)))
  = glyph (blobs (renderFrame example_world)) 1 1
  /\ String.get (width + 1 * (width + 1)) (serialize (buffer (renderFrame example_world)))
     = Some newline.
Proof.
  apply (frame_rows example_world 1 1).
  - rewrite width_val. apply Nat.ltb_lt. reflexivity.
  - rewrite height_val. apply Nat.ltb_lt. reflexivity.
Defined.

(** ** Where the ramp turns blank and solid *)

Lemma Zfloor_lt_iff (x : R) (z : Z) : (Zfloor x < z)%Z <-> x < IZR z.
Proof.
  pose proof (Zfloor_bound x) as [Hlo Hhi]. split.
  - intros Hlt. assert (IZR (Zfloor x) + 1 <= IZR z).
    { rewrite <- plus_IZR. apply IZR_le. lia. }
    lra.
  - intros Hlt. apply lt_IZR. lra.
Qed.

Lemma charIdx_blank_iff (v : R) : (charIdx v < 7)%Z <-> v < 0.95 + 5 / 9.
Proof.
  unfold charIdx. rewrite ramp_last, Zfloor_lt_iff. unfold norm.
  destruct (Rlt_dec ((v - 0.95) * 0.7) 0);
    repeat match goal with
           | |- context [Rgt_dec ?a ?b] => destruct (Rgt_dec a b)
           end; split; intros; lra.
Qed.

Lemma charIdx_solid_iff (v : R) : charIdx v = 18%Z <-> 0.95 + 10 / 7 <= v.
Proof.
  pose proof (charIdx_range v) as Hr.
  assert (Hiff : (charIdx v < 18)%Z <-> v < 0.95 + 10 / 7).
  { unfold charIdx. rewrite ramp_last, Zfloor_lt_iff. unfold norm.
    destruct (Rlt_dec ((v - 0.95) * 0.7) 0);
      repeat match goal with
             | |- context [Rgt_dec ?a ?b] => destruct (Rgt_dec a b)
             end; split; intros; lra. }
  split.
  - intros Heq. destruct (Rle_dec (0.95 + 10 / 7) v) as [Hle | Hnle]; [exact Hle |].
    assert (charIdx v < 18)%Z by (apply Hiff; lra). lia.
  - intros Hle. destruct (Z.eq_dec (charIdx v) 18) as [Heq | Hne]; [exact Heq |].
    assert (v < 0.95 + 10 / 7) by (apply Hiff; lia). lra.
Qed.

Lemma ramp_blank_iff (i : Z) :
  (0 <= i <= 18)%Z -> (char_at chars i = Some " "%char <-> (i < 7)%Z).
Proof.
  intros Hi.
  assert (Hn : exists n, i = Z.of_nat n /\ (n <= 18)%nat)
    by (exists (Z.to_nat i); lia).
  destruct Hn as [n [-> Hn]].
  do 19 (destruct n as [| n];
         [split; intros H; try reflexivity; try lia; try discriminate H |]).
  lia.
Qed.

Lemma ramp_solid_iff (i : Z) :
  (0 <= i <= 18)%Z -> (char_at chars i = Some "@"%char <-> i = 18%Z).
Proof.
  intros Hi.
  assert (Hn : exists n, i = Z.of_nat n /\ (n <= 18)%nat)
    by (exists (Z.to_nat i); lia).
  destruct Hn as [n [-> Hn]].
  do 19 (destruct n as [| n];
         [split; intros H; try reflexivity; try lia; try discriminate H |]).
  lia.
Qed.

Lemma glyph_solid_iff (bs : list Blob.t) (cx cy : nat) :
  glyph bs cx cy = Some "@"%char <-> 0.95 + 10 / 7 <= sumField bs cx cy.
Proof.
  unfold glyph.
  rewrite (ramp_solid_iff _ (charIdx_range (sumField bs cx cy))).
  apply charIdx_solid_iff.
Qed.

Lemma glyph_blank_iff (bs : list Blob.t) (cx cy : nat) :
  glyph bs cx cy = Some " "%char <-> sumField bs cx cy < 0.95 + 5 / 9.
Proof.
  unfold glyph.
  rewrite (ramp_blank_iff _ (charIdx_range (sumField bs cx cy))).
  apply charIdx_blank_iff.
Qed.

(** X5.  The seven blanks at the head of the ramp: a cell whose field sum
    is at most 1.5 is drawn blank and one whose field sum is at least 1.51
    is not; a cell whose field sum is at least 2.38 is drawn solid ([@]) and
    one whose field sum is at most 2.37 is not. *)
Theorem glyph_thresholds (bs : list Blob.t) (cx cy : nat) :
  (sumField bs cx cy <= 1.5 -> glyph bs cx cy = Some " "%char)
  /\ (1.51 <= sumField bs cx cy -> glyph bs cx cy <> Some " "%char)
  /\ (sumField bs cx cy <= 2.37 -> glyph bs cx cy <> Some "@"%char)
  /\ (2.38 <= sumField bs cx cy -> glyph bs cx cy = Some "@"%char).
Proof.
  pose proof (glyph_blank_iff bs cx cy) as [Hb1 Hb2].
  pose proof (glyph_solid_iff bs cx cy) as [Hs1 Hs2].
  repeat split.
  - intros Hv. apply Hb2. lra.
  - intros Hv Hg. apply Hb1 in Hg. lra.
  - intros Hv Hg. apply Hs1 in Hg. lra.
  - intros Hv. apply Hs2. lra.
Qed.

(** The two cells of the single-blob scenario: field sums 250 / 908 and
    31.25. *)
Lemma glyph_thresholds_witness :
  glyph [scenario_blob 0 0 0 0] 110 28 = Some " "%char
  /\ glyph [scenario_blob 0 0 0 0] 80 28 = Some "@"%char.
Proof.
  split.
  - apply (proj1 (glyph_thresholds [scenario_blob 0 0 0 0] 110 28)).
    rewrite scenario_far. lra.
  - apply (proj2 (proj2 (proj2 (glyph_thresholds [scenario_blob 0 0 0 0] 80 28)))).
    rewrite scenario_center. lra.
Defined.

(** ** Every blob shows *)

Lemma fold_contribution_member (cx cy : nat) (bs : list Blob.t) (b : Blob.t) (acc : R) :
  In b bs ->
  acc + contribution cx cy b
  <= fold_left (fun a b' => a + contribution cx cy b') bs acc.
Proof.
  revert acc. induction bs as [| b' bs IH]; intros acc Hin; [destruct Hin |].
  cbn [fold_left]. destruct Hin as [-> | Hin].
  - apply fold_contribution_ge.
  - pose proof (IH (acc + contribution cx cy b') Hin).
    pose proof (contribution_nonneg cx cy b'). lra.
Qed.

Lemma sumField_ge_member (bs : list Blob.t) (b : Blob.t) (cx cy : nat) :
  In b bs -> contribution cx cy b <= sumField bs cx cy.
Proof.
  intros Hin. unfold sumField.
  pose proof (fold_contribution_member cx cy bs b 0 Hin). lra.
Qed.

Lemma contribution_near (cx cy : nat) (b : Blob.t) :
  6 <= Blob.radius b ->
  Rabs (INR cx - Blob.x b) < 1 -> Rabs (INR cy - Blob.y b) < 1 ->
  6.5 <= contribution cx cy b.
Proof.
  intros Hr Hx Hy. unfold contribution. cbv zeta.
  set (dx := INR cx - Blob.x b) in *.
  set (dy := INR cy - Blob.y b) in *.
  set (r := Blob.radius b) in *.
  apply Rabs_def2 in Hx. apply Rabs_def2 in Hy.
  assert (Hden : 0 < dx * dx + dy * 2.2 * (dy * 2.2) + 8) by nra.
  assert (Hbound : dx * dx + dy * 2.2 * (dy * 2.2) + 8 <= 13.84) by nra.
  remember (dx * dx + dy * 2.2 * (dy * 2.2) + 8) as den eqn:Eden.
  remember (r * r * 2.5) as num eqn:Enum.
  assert (Hnum : 90 <= num) by (subst num; nra).
  apply (Rmult_le_reg_r den); [exact Hden |].
  replace (num / den * den) with num by (field; lra).
  nra.
Qed.

Lemma floor_cell (v : R) (bound : nat) :
  0 <= v -> v < INR bound ->
  (Z.to_nat (Zfloor v) < bound)%nat /\ Rabs (INR (Z.to_nat (Zfloor v)) - v) < 1.
Proof.
  intros Hlo Hhi.
  pose proof (Zfloor_bound v) as [Hfl Hfu].
  assert (Hz : (0 <= Zfloor v)%Z) by (apply Zfloor_lub; simpl; lra).
  assert (HI : INR (Z.to_nat (Zfloor v)) = IZR (Zfloor v))
    by (rewrite INR_IZR_INZ, Z2Nat.id by exact Hz; reflexivity).
  split.
  - apply INR_lt. rewrite HI. lra.
  - rewrite HI. apply Rabs_def1; lra.
Qed.

(** X6.  After every tick every blob is visible: one of the cells less than
    one column and one row away from its position lies on the grid and holds
    the solid glyph. *)
Theorem blob_core_is_solid (w : World) :
  Forall (fun b => exists cx cy,
            (cx < width)%nat /\ (cy < height)%nat
            /\ Rabs (INR cx - Blob.x b) < 1 /\ Rabs (INR cy - Blob.y b) < 1
            /\ array_get (buffer (renderFrame w)) (cx + cy * width) = Some "@"%char)
         (blobs (renderFrame w)).
Proof.
  apply Forall_forall. intros b Hin.
  assert (Hb : exists b0, b = updateBlob (time w + 0.005) b0).
  { rewrite renderFrame_blobs in Hin. apply in_map_iff in Hin.
    destruct Hin as (b0 & Heq & _). exists b0. symmetry. exact Heq. }
  destruct Hb as (b0 & Hb).
  pose proof (updateBlob_x_range (time w + 0.005) b0) as Hx.
  pose proof (updateBlob_y_range (time w + 0.005) b0) as Hy.
  pose proof (updateBlob_radius_range (time w + 0.005) b0) as Hr.
  rewrite <- Hb in Hx, Hy, Hr.
  destruct (floor_cell (Blob.x b) width) as (Hcx & Hdx);
    [lra | rewrite INR_width; lra |].
  destruct (floor_cell (Blob.y b) height) as (Hcy & Hdy);
    [lra | rewrite INR_height; lra |].
  exists (Z.to_nat (Zfloor (Blob.x b))), (Z.to_nat (Zfloor (Blob.y b))).
  repeat split; try assumption.
  rewrite renderFrame_cell by assumption.
  apply glyph_solid_iff.
  pose proof (contribution_near _ _ b (proj1 Hr) Hdx Hdy).
  pose proof (sumField_ge_member _ b
                (Z.to_nat (Zfloor (Blob.x b))) (Z.to_nat (Zfloor (Blob.y b))) Hin).
  lra.
Qed.

(** ** The run as a whole *)

Lemma taken_time (w : World) : time (taken w) = time w.
Proof. reflexivity. Qed.

(** X7.  One tick per frame: the clock is 0 at start and every host frame
    adds 0.005 to it once; [n] host frames after start exactly one callback
    is pending (under the handle issued last), [n * width * height] glyphs
    have been stored, [n] frames have been shown, and the only draws of
    [Math.random] are the [5 * numBlobs] of the start. *)
Theorem run_after_frames (rnd : nat -> R) (d l : nat) (pre : string) (n : nat) :
  let w := frames n (start (mkHost rnd d l []) (Some pre)) in
  time (start (mkHost rnd d l []) (Some pre)) = 0
  /\ time (animation_frame w) = time w + 0.005
  /\ callbacks (host w) = [(S l + n)%nat]
  /\ stores w = (n * (width * height))%nat
  /\ List.length (presented w) = n
  /\ draws (host w) = (5 * numBlobs + d)%nat.
Proof.
  cbv zeta.
  destruct (frames_after_start rnd d l (Some pre) n) as (Hl & Hh & _ & Hst & Hpr & Hat).
  rewrite Hat in Hpr.
  split; [rewrite start_unfold; reflexivity |].
  split; [rewrite (animation_frame_single _ _ Hl), renderFrame_time; apply f_equal2;
          [apply taken_time | reflexivity] |].
  unfold looping in Hl. rewrite Hh in Hl.
  split; [exact Hl | split; [exact Hst | split; [exact Hpr |]]].
  rewrite frames_draws, start_host. reflexivity.
Qed.

Lemma run_callbacks_params (due : list nat) (w : World) :
  map params (blobs (fold_left (fun w' _ => renderFrame w') due w))
  = map params (blobs w).
Proof.
  revert w. induction due as [| id due IH]; intros w; [reflexivity |].
  cbn [fold_left]. rewrite IH, renderFrame_blobs. apply map_params_update.
Qed.

(** X9.  The trajectory parameters are immutable: whatever the world and
    however many frames run, every blob keeps its [speed] and [offset]. *)
Theorem params_never_change (w : World) (n : nat) :
  map params (blobs (frames n w)) = map params (blobs w).
Proof.
  induction n as [| n IH]; [reflexivity |].
  rewrite frames_S, animation_frame_unfold, run_callbacks_params. exact IH.
Qed.

(** ** The blobs a start creates *)

Lemma new_blob_fields (h : Host) :
  fst (new_blob h)
  = Blob.mk (INR width / 2) (INR height / 2)
            ((random h (draws h) - 0.5) * 2)
            ((random h (1 + draws h) - 0.5) * 2)
            (0.2 + random h (2 + draws h) * 0.4)
            (random h (3 + draws h) * 100)
            (5 + random h (4 + draws h) * 8).
Proof. reflexivity. Qed.

Lemma Array_from_Forall (P : Blob.t -> Prop) (n : nat) (h : Host) :
  (forall h', random h' = random h -> P (fst (new_blob h'))) ->
  Forall P (fst (Array_from n h)).
Proof.
  revert h. induction n as [| n IH]; intros h HP; [constructor |].
  rewrite Array_from_S. cbn [fst]. constructor.
  - apply HP. reflexivity.
  - apply IH. intros h' Hh'. apply HP. rewrite Hh', new_blob_host. reflexivity.
Qed.

(** X8.  When [Math.random] returns numbers of [[0, 1)], every blob a start
    creates sits at the centre of the grid with [kx] and [ky] in [[-1, 1]],
    [speed] in [[0.2, 0.6]], [offset] in [[0, 100]] and [radius] in
    [[5, 13]]; there are [numBlobs] of them. *)
Theorem start_blob_ranges (rnd : nat -> R) (d l : nat) (pre : option string) :
  (forall i, 0 <= rnd i < 1) ->
  Forall (fun b => Blob.x b = 80 /\ Blob.y b = 28
                   /\ -1 <= Blob.kx b <= 1 /\ -1 <= Blob.ky b <= 1
                   /\ 0.2 <= Blob.speed b <= 0.6
                   /\ 0 <= Blob.offset b <= 100
                   /\ 5 <= Blob.radius b <= 13)
         (blobs (start (mkHost rnd d l []) pre))
  /\ List.length (blobs (start (mkHost rnd d l []) pre)) = numBlobs.
Proof.
  intros Hrnd. rewrite start_unfold. cbn [blobs]. split; [| apply Array_from_length].
  apply Array_from_Forall. intros h' Hh'. cbn [random] in Hh'.
  rewrite new_blob_fields, Hh'. cbn [Blob.x Blob.y Blob.kx Blob.ky Blob.speed Blob.offset Blob.radius].
  rewrite INR_width, INR_height.
  pose proof (Hrnd (draws h')). pose proof (Hrnd (1 + draws h')%nat).
  pose proof (Hrnd (2 + draws h')%nat). pose proof (Hrnd (3 + draws h')%nat).
  pose proof (Hrnd (4 + draws h')%nat).
  repeat split; lra.
Qed.

(** A source that always answers one half. *)
Lemma start_blob_ranges_witness :
  Forall (fun b => Blob.x b = 80 /\ Blob.y b = 28
                   /\ -1 <= Blob.kx b <= 1 /\ -1 <= Blob.ky b <= 1
                   /\ 0.2 <= Blob.speed b <= 0.6
                   /\ 0 <= Blob.offset b <= 100
                   /\ 5 <= Blob.radius b <= 13)
         (blobs (start (mkHost (constant_source (1 / 2)) 0 0 []) None))
  /\ List.length (blobs (start (mkHost (constant_source (1 / 2)) 0 0 []) None)) = numBlobs.
Proof.
  apply (start_blob_ranges (constant_source (1 / 2)) 0 0 None).
  intros i. unfold constant_source. lra.
Defined.

(** * Navigation *)

Lemma str_eqb_eq (a b : jsstring) : str_eqb a b = true <-> a = b.
Proof.
  revert b. induction a as [| c a IH]; intros [| d b]; cbn [str_eqb];
    try (split; [discriminate | discriminate]); [split; reflexivity |].
  rewrite andb_true_iff, N.eqb_eq, IH. split.
  - intros [-> ->]. reflexivity.
  - intros H. injection H as -> ->. split; reflexivity.
Qed.

Lemma startsWith_prefix (s p : jsstring) :
  startsWith s p = true <-> exists rest, s = p ++ rest.
Proof.
  revert s. induction p as [| c p IH]; intros s.
  - split; [intros _; exists s; reflexivity | intros _; destruct s; reflexivity].
  - destruct s as [| d s]; cbn [startsWith].
    + split; [discriminate | intros [rest H]; discriminate H].
    + rewrite andb_true_iff, N.eqb_eq, IH. split.
      * intros [-> [rest ->]]. exists rest. reflexivity.
      * intros [rest H]. injection H as -> ->. split; [reflexivity | exists rest; reflexivity].
Qed.

Lemma isActive_home (p : jsstring) :
  isActive (Some p) (lit "/") = str_eqb p (lit "/").
Proof.
  unfold isActive. change (str_eqb (lit "/") (lit "/")) with true.
  cbn [andb negb]. destruct (str_eqb p (lit "/")); reflexivity.
Qed.

Lemma isActive_link (p href : jsstring) :
  str_eqb href (lit "/") = false -> isActive (Some p) href = startsWith p href.
Proof.
  intros Hne. unfold isActive. rewrite Hne. cbn [andb negb].
  destruct (startsWith p href); reflexivity.
Qed.

(** X10.  Whatever the pathname, [null] included, at most one of the three
    navigation items is highlighted. *)
Theorem nav_at_most_one_active (pathname : option jsstring) :
  (List.length (filter (isActive pathname) navItems) <= 1)%nat.
Proof.
  destruct pathname as [p |]; [| cbn; lia].
  unfold navItems. cbn [filter].
  rewrite isActive_home, (isActive_link p (lit "/blog")), (isActive_link p (lit "/#posts"))
    by reflexivity.
  destruct (str_eqb p (lit "/")) eqn:Ehome.
  - apply str_eqb_eq in Ehome. subst p. cbn. lia.
  - destruct (startsWith p (lit "/blog")) eqn:Eblog;
      destruct (startsWith p (lit "/#posts")) eqn:Econtact; cbn [List.length]; try lia.
    apply startsWith_prefix in Eblog. apply startsWith_prefix in Econtact.
    destruct Eblog as [r1 ->]. destruct Econtact as [r2 H]. discriminate H.
Qed.

(** X11.  A pathname carries no fragment, so the Contact item, whose [href]
    is [/#posts], is never highlighted. *)
Theorem contact_never_active (p : jsstring) :
  ~ In 35%N p -> isActive (Some p) (lit "/#posts") = false.
Proof.
  intros Hno. rewrite isActive_link by reflexivity.
  destruct (startsWith p (lit "/#posts")) eqn:E; [| reflexivity].
  apply startsWith_prefix in E. destruct E as [rest ->].
  exfalso. apply Hno. cbn. right. left. reflexivity.
Qed.

Lemma contact_never_active_witness :
  isActive (Some (lit "/blog/triton-kernels")) (lit "/#posts") = false.
Proof.
  apply (contact_never_active (lit "/blog/triton-kernels")).
  cbn. intros H. repeat (destruct H as [H | H]; [discriminate H |]). exact H.
Defined.

(** * The rotating title *)

Lemma titles_length : List.length titles = 4%nat.
Proof. reflexivity. Qed.

(** X12.  [updateTitle] never leaves the list: from any state, with [i]
    the index before the update, the index after it is [(i + 1) mod 4], below
    [titles.length]; the element (when there is one) shows the title at that
    index; and four further updates bring back the same state. *)
Theorem title_rotation (s : TitleState) :
  let s' := updateTitle s in
  currentTitleIndex s' = ((currentTitleIndex s + 1) mod 4)%nat
  /\ (currentTitleIndex s' < List.length titles)%nat
  /\ (exists t, nth_error titles ((currentTitleIndex s + 1) mod 4) = Some t
                /\ textContent s' = match textContent s with
                                    | Some _ => Some (Some t)
                                    | None => None
                                    end)
  /\ Nat.iter 4 updateTitle s' = s'.
Proof.
  cbv zeta.
  assert (Hlt : ((currentTitleIndex s + 1) mod 4 < 4)%nat)
    by (apply Nat.mod_upper_bound; discriminate).
  assert (Hup : updateTitle s
                = mkTitleState ((currentTitleIndex s + 1) mod 4)
                    match textContent s with
                    | Some _ => Some (nth_error titles ((currentTitleIndex s + 1) mod 4))
                    | None => None
                    end) by reflexivity.
  rewrite Hup. clear Hup. cbn [currentTitleIndex textContent].
  rewrite titles_length.
  remember ((currentTitleIndex s + 1) mod 4)%nat as i eqn:Ei.
  assert (Hi : (i = 0 \/ i = 1 \/ i = 2 \/ i = 3)%nat) by lia.
  clear Ei.
  split; [reflexivity |]. split; [exact Hlt |]. split.
  - destruct Hi as [-> | [-> | [-> | ->]]]; eexists;
      (split; [reflexivity | destruct (textContent s); reflexivity]).
  - destruct Hi as [-> | [-> | [-> | ->]]]; destruct (textContent s); reflexivity.
Qed.

(** * Reading time *)

Lemma split_spaces_count (s : jsstring) :
  (forall cur, List.length (split_spaces false cur s)
               = (1 + count_words false s
                  + if ends_in_space false s then 1 else 0)%nat)
  /\ (forall cur, (List.length (split_spaces true cur s)
                   + if ends_in_space true s then 0 else 1)%nat
                  = (1 + count_words true s)%nat).
Proof.
  induction s as [| c s [IHf IHt]]; [split; reflexivity |].
  cbn [split_spaces count_words ends_in_space].
  destruct (is_space c) eqn:Ec; split; intros cur.
  - cbn [List.length]. specialize (IHt []).
    destruct (ends_in_space true s); lia.
  - apply IHt.
  - apply IHf.
  - specialize (IHf (c :: cur)).
    destruct (ends_in_space false s); lia.
Qed.

Lemma trimStart_split (s : jsstring) :
  exists ws, s = ws ++ trimStart s /\ Forall (fun c => is_space c = true) ws.
Proof.
  induction s as [| c s (ws & Heq & Hws)]; [exists []; split; [reflexivity | constructor] |].
  cbn [trimStart]. destruct (is_space c) eqn:Ec.
  - exists (c :: ws). split; [cbn; f_equal; exact Heq | constructor; assumption].
  - exists []. split; [reflexivity | constructor].
Qed.

Lemma trimStart_head (s : jsstring) (c : N) (rest : jsstring) :
  trimStart s = c :: rest -> is_space c = false.
Proof.
  induction s as [| d s IH]; cbn [trimStart]; [discriminate |].
  destruct (is_space d) eqn:Ed; [exact IH |].
  intros H. injection H as <- _. exact Ed.
Qed.

Lemma trimEnd_split (s : jsstring) :
  exists ws, s = trimEnd s ++ ws /\ Forall (fun c => is_space c = true) ws.
Proof.
  destruct (trimStart_split (rev s)) as (ws & Heq & Hws).
  exists (rev ws). split.
  - unfold trimEnd. rewrite <- rev_app_distr, <- Heq, rev_involutive. reflexivity.
  - apply Forall_rev. exact Hws.
Qed.

Lemma trimEnd_last (s : jsstring) :
  trimEnd s = [] \/ exists u c, trimEnd s = u ++ [c] /\ is_space c = false.
Proof.
  unfold trimEnd. destruct (trimStart (rev s)) as [| c rest] eqn:E; [left; reflexivity |].
  right. exists (rev rest), c. split; [reflexivity | exact (trimStart_head _ _ _ E)].
Qed.

Lemma count_words_blank (a : bool) (ws : jsstring) :
  Forall (fun c => is_space c = true) ws -> count_words a ws = 0%nat.
Proof.
  intros Hws. revert a. induction Hws as [| c ws Hc _ IH]; intros a; [reflexivity |].
  cbn [count_words]. rewrite Hc. apply IH.
Qed.

Lemma count_words_blank_prefix (ws s : jsstring) :
  Forall (fun c => is_space c = true) ws ->
  count_words true (ws ++ s) = count_words true s.
Proof.
  intros Hws. induction Hws as [| c ws Hc _ IH]; [reflexivity |].
  cbn [app count_words]. rewrite Hc. exact IH.
Qed.

Lemma count_words_blank_suffix (a : bool) (u ws : jsstring) :
  Forall (fun c => is_space c = true) ws ->
  count_words a (u ++ ws) = count_words a u.
Proof.
  intros Hws. revert a. induction u as [| c u IH]; intros a.
  - cbn [app]. rewrite count_words_blank by exact Hws. reflexivity.
  - cbn [app count_words]. rewrite !IH. reflexivity.
Qed.

Lemma ends_in_space_last (r : bool) (u : jsstring) (c : N) :
  ends_in_space r (u ++ [c]) = is_space c.
Proof. revert r. induction u as [| d u IH]; intros r; [reflexivity | apply IH]. Qed.

Lemma word_count_words (content : jsstring) :
  word_count content = Nat.max 1 (count_words true content).
Proof.
  unfold word_count, trim.
  destruct (trimStart_split content) as (ws & Heq & Hws).
  rewrite Heq at 2. rewrite count_words_blank_prefix by exact Hws.
  destruct (trimEnd_split (trimStart content)) as (ws' & Heq' & Hws').
  rewrite Heq' at 2. rewrite count_words_blank_suffix by exact Hws'.
  destruct (trimEnd_last (trimStart content)) as [Hnil | (u & c & Hu & Hc)].
  - rewrite Hnil. reflexivity.
  - destruct (split_spaces_count (trimEnd (trimStart content))) as (Hf & _).
    rewrite (Hf []). rewrite Hu at 2. rewrite ends_in_space_last, Hc.
    destruct (trimEnd (trimStart content)) as [| c0 t'] eqn:Et.
    + destruct u; discriminate Hu.
    + assert (Hc0 : is_space c0 = false).
      { destruct (trimStart content) as [| d t0] eqn:Et0.
        - destruct ws'; discriminate Heq'.
        - cbn [app] in Heq'. injection Heq' as -> _.
          exact (trimStart_head _ _ _ Et0). }
      cbn [count_words]. rewrite Hc0. lia.
Qed.

Lemma ceil_div_bounds (a b : nat) :
  (0 < b)%nat -> (0 < a)%nat ->
  (1 <= ceil_div a b /\ b * (ceil_div a b - 1) < a <= b * ceil_div a b)%nat.
Proof.
  intros Hb Ha. unfold ceil_div.
  pose proof (Nat.div_mod_eq (a + b - 1) b) as Hdm.
  pose proof (Nat.mod_upper_bound (a + b - 1) b ltac:(lia)) as Hr.
  set (q := ((a + b - 1) / b)%nat) in *. set (r := ((a + b - 1) mod b)%nat) in *.
  assert (1 <= q)%nat by (destruct q; [nia | lia]).
  repeat split; nia.
Qed.

(** X13.  The estimate is [ceil (words / 200)] minutes, where the number of
    words the [split] yields is the number of words of the text, but never
    less than one: the estimate is at least one minute, and it is the least
    number of minutes at 200 words a minute that covers the words. *)
Theorem read_time_estimate (content : jsstring) :
  let words := word_count content in
  let minutes := ceil_div words wordsPerMinute in
  estimateReadTime content = decimal minutes ++ lit " min read"
  /\ words = Nat.max 1 (count_words true content)
  /\ (1 <= minutes)%nat
  /\ (wordsPerMinute * (minutes - 1) < words <= wordsPerMinute * minutes)%nat.
Proof.
  cbv zeta. split; [reflexivity |]. split; [apply word_count_words |].
  apply ceil_div_bounds.
  - unfold wordsPerMinute. lia.
  - rewrite word_count_words. lia.
Qed.

(** X14.  A text with no word in it, the empty text included, is estimated
    at one minute. *)
Theorem blank_content_one_minute (content : jsstring) :
  Forall (fun c => is_space c = true) content ->
  estimateReadTime content = lit "1 min read".
Proof.
  intros Hws. unfold estimateReadTime.
  rewrite word_count_words, count_words_blank by exact Hws. reflexivity.
Qed.

(** A space, a line feed, a tab and a line separator. *)
Lemma blank_content_one_minute_witness :
  estimateReadTime [32; 10; 9; 8232]%N = lit "1 min read".
Proof.
  apply (blank_content_one_minute [32; 10; 9; 8232]%N).
  repeat constructor.
Defined.

(** * Slugs *)

Lemma slug_char_not_space (c : N) : is_slug_char c = true -> is_space c = false.
Proof.
  intros H. destruct (is_space c) eqn:E; [exfalso | reflexivity].
  unfold is_slug_char, is_lower, is_digit, is_hyphen, hyphen in H.
  unfold is_space in E.
  rewrite !orb_true_iff, !andb_true_iff, ?N.eqb_eq, !N.leb_le in H.
  rewrite !orb_true_iff, ?andb_true_iff, !N.eqb_eq, ?N.leb_le in E.
  lia.
Qed.

Lemma slug_char_keep (c : N) : is_slug_char c = true -> slug_keep c = true.
Proof.
  unfold is_slug_char, slug_keep.
  destruct (is_lower c), (is_digit c), (is_hyphen c), (is_space c); cbn; congruence.
Qed.

Lemma keep_not_space_slug_char (c : N) :
  slug_keep c = true -> is_space c = false -> is_slug_char c = true.
Proof.
  unfold is_slug_char, slug_keep. intros Hk Hs. rewrite Hs in Hk.
  destruct (is_lower c), (is_digit c), (is_hyphen c); cbn in *; congruence.
Qed.

Lemma trimStart_no_space (s : jsstring) :
  Forall (fun c => is_space c = false) s -> trimStart s = s.
Proof. intros Hs. destruct Hs as [| c s Hc _]; cbn [trimStart]; [| rewrite Hc]; reflexivity. Qed.

Lemma trim_no_space (s : jsstring) :
  Forall (fun c => is_space c = false) s -> trim s = s.
Proof.
  intros Hs. unfold trim, trimEnd.
  rewrite (trimStart_no_space s Hs), trimStart_no_space by (apply Forall_rev; exact Hs).
  apply rev_involutive.
Qed.

Lemma replace_spaces_chars (r : bool) (s : jsstring) :
  Forall (fun c => slug_keep c = true) s ->
  Forall (fun c => is_slug_char c = true) (replace_runs is_space hyphen r s).
Proof.
  intros Hs. revert r. induction Hs as [| c s Hc _ IH]; intros r; [constructor |].
  cbn [replace_runs]. destruct (is_space c) eqn:Ec.
  - destruct r; [apply IH | constructor; [reflexivity | apply IH]].
  - constructor; [apply keep_not_space_slug_char; assumption | apply IH].
Qed.

Lemma replace_hyphens_chars (r : bool) (s : jsstring) :
  Forall (fun c => is_slug_char c = true) s ->
  Forall (fun c => is_slug_char c = true) (replace_runs is_hyphen hyphen r s).
Proof.
  intros Hs. revert r. induction Hs as [| c s Hc _ IH]; intros r; [constructor |].
  cbn [replace_runs]. destruct (is_hyphen c) eqn:Ec.
  - destruct r; [apply IH | constructor; [reflexivity | apply IH]].
  - constructor; [exact Hc | apply IH].
Qed.

Lemma single_hyphens_cons (c d : N) (rest : jsstring) :
  single_hyphens (c :: d :: rest)
  = (negb (is_hyphen c && is_hyphen d) && single_hyphens (d :: rest))%bool.
Proof. reflexivity. Qed.

Lemma replace_hyphens_single (r : bool) (s : jsstring) :
  single_hyphens (replace_runs is_hyphen hyphen r s) = true
  /\ (r = true ->
      match replace_runs is_hyphen hyphen r s with
      | c :: _ => is_hyphen c = false
      | [] => True
      end).
Proof.
  revert r. induction s as [| c s IH]; intros r; [split; [reflexivity | intros _; exact I] |].
  cbn [replace_runs]. destruct (is_hyphen c) eqn:Ec.
  - destruct r.
    + apply IH.
    + destruct (IH true) as (Hs & Hh). specialize (Hh eq_refl). split; [| discriminate].
      destruct (replace_runs is_hyphen hyphen true s) as [| d rest]; [reflexivity |].
      rewrite single_hyphens_cons, Hh, Hs, andb_false_r. reflexivity.
  - destruct (IH false) as (Hs & _). split; [| intros _; exact Ec].
    destruct (replace_runs is_hyphen hyphen false s) as [| d rest]; [reflexivity |].
    rewrite single_hyphens_cons, Ec, Hs. reflexivity.
Qed.

Lemma slug_untrimmed_chars (lc : jsstring -> jsstring) (title : jsstring) :
  Forall (fun c => is_slug_char c = true) (slug_untrimmed lc title).
Proof.
  unfold slug_untrimmed. apply replace_hyphens_chars, replace_spaces_chars.
  apply Forall_forall. intros c Hc. apply filter_In in Hc. apply Hc.
Qed.

Lemma slug_trim_unused (lc : jsstring -> jsstring) (title : jsstring) :
  generateSlug lc title = slug_untrimmed lc title.
Proof.
  unfold generateSlug. apply trim_no_space.
  eapply Forall_impl; [| apply slug_untrimmed_chars].
  intros c. apply slug_char_not_space.
Qed.

Lemma slug_single_hyphens (lc : jsstring -> jsstring) (title : jsstring) :
  single_hyphens (generateSlug lc title) = true.
Proof.
  rewrite slug_trim_unused. unfold slug_untrimmed. apply replace_hyphens_single.
Qed.

Lemma slug_chars (lc : jsstring -> jsstring) (title : jsstring) :
  Forall (fun c => is_slug_char c = true) (generateSlug lc title).
Proof. rewrite slug_trim_unused. apply slug_untrimmed_chars. Qed.

(** X15.  Whatever [toLowerCase] returns, a slug is made of the characters
    [a-z], [0-9] and [-] only, and never has two hyphens in a row. *)
Theorem slug_shape (toLowerCase : jsstring -> jsstring) (title : jsstring) :
  Forall (fun c => is_slug_char c = true) (generateSlug toLowerCase title)
  /\ single_hyphens (generateSlug toLowerCase title) = true.
Proof.
  split; [apply slug_chars | apply slug_single_hyphens].
Qed.

(** X16.  The final [.trim('-')] removes nothing, since [trim] ignores its
    argument and no white space is left: when the lower-cased title begins
    with white space or a hyphen (after the characters outside the class are
    dropped), the slug begins with a hyphen. *)
Theorem slug_keeps_leading_hyphen (toLowerCase : jsstring -> jsstring)
  (title : jsstring) (c : N) (rest : jsstring) :
  filter slug_keep (toLowerCase title) = c :: rest ->
  (is_space c || is_hyphen c)%bool = true ->
  generateSlug toLowerCase title = slug_untrimmed toLowerCase title
  /\ exists rest', generateSlug toLowerCase title = hyphen :: rest'.
Proof.
  intros Hkept Hc. split; [apply slug_trim_unused |].
  rewrite slug_trim_unused. unfold slug_untrimmed. rewrite Hkept.
  cbn [replace_runs]. destruct (is_space c) eqn:Es.
  - cbn [replace_runs]. change (is_hyphen hyphen) with true. cbn iota.
    eexists. reflexivity.
  - cbn [orb] in Hc. cbn [replace_runs]. rewrite Hc. eexists. reflexivity.
Qed.

(** The title [" Hello"]. *)
Lemma slug_keeps_leading_hyphen_witness :
  generateSlug ascii_toLowerCase (lit " Hello")
  = slug_untrimmed ascii_toLowerCase (lit " Hello")
  /\ exists rest', generateSlug ascii_toLowerCase (lit " Hello") = hyphen :: rest'.
Proof.
  apply (slug_keeps_leading_hyphen ascii_toLowerCase (lit " Hello") 32%N (lit "hello"));
    reflexivity.
Defined.

Lemma filter_keep_clean (s : jsstring) :
  Forall (fun c => is_slug_char c = true) s -> filter slug_keep s = s.
Proof.
  intros Hs. induction Hs as [| c s Hc _ IH]; [reflexivity |].
  cbn [filter]. rewrite (slug_char_keep c Hc), IH. reflexivity.
Qed.

Lemma replace_spaces_clean (r : bool) (s : jsstring) :
  Forall (fun c => is_slug_char c = true) s -> replace_runs is_space hyphen r s = s.
Proof.
  intros Hs. revert r. induction Hs as [| c s Hc _ IH]; intros r; [reflexivity |].
  cbn [replace_runs]. rewrite (slug_char_not_space c Hc), IH. reflexivity.
Qed.

Lemma replace_hyphens_clean (s : jsstring) :
  single_hyphens s = true ->
  replace_runs is_hyphen hyphen false s = s
  /\ (match s with c :: _ => is_hyphen c = false | [] => True end ->
      replace_runs is_hyphen hyphen true s = s).
Proof.
  induction s as [| c s IH]; intros Hs; [split; reflexivity |].
  assert (Hs' : single_hyphens s = true).
  { destruct s as [| d s]; [reflexivity |].
    rewrite single_hyphens_cons in Hs. apply andb_true_iff in Hs. apply Hs. }
  destruct (IH Hs') as (IHf & IHt).
  cbn [replace_runs]. destruct (is_hyphen c) eqn:Ec.
  - split; [| discriminate]. f_equal.
    + unfold is_hyphen in Ec. apply N.eqb_eq in Ec. symmetry. exact Ec.
    + apply IHt. destruct s as [| d s]; [exact I |].
      rewrite single_hyphens_cons, Ec in Hs. cbn [andb] in Hs.
      destruct (is_hyphen d); [discriminate Hs | reflexivity].
  - split; intros; f_equal; exact IHf.
Qed.

Lemma slug_of_clean (lc : jsstring -> jsstring) (s : jsstring) :
  lc s = s ->
  Forall (fun c => is_slug_char c = true) s -> single_hyphens s = true ->
  generateSlug lc s = s.
Proof.
  intros Hlc Hchars Hsingle.
  rewrite slug_trim_unused. unfold slug_untrimmed.
  rewrite Hlc, (filter_keep_clean s Hchars), (replace_spaces_clean false s Hchars).
  apply replace_hyphens_clean, Hsingle.
Qed.

(** X17.  [generateSlug] is idempotent, given that [toLowerCase] leaves
    strings over [a-z], [0-9] and [-] as they are: the slug of a slug is that
    slug. *)
Theorem slug_idempotent (toLowerCase : jsstring -> jsstring) (title : jsstring) :
  (forall s, Forall (fun c => is_slug_char c = true) s -> toLowerCase s = s) ->
  generateSlug toLowerCase (generateSlug toLowerCase title)
  = generateSlug toLowerCase title.
Proof.
  intros Hlc.
  pose proof (slug_chars toLowerCase title) as Hchars.
  pose proof (slug_single_hyphens toLowerCase title) as Hsingle.
  apply slug_of_clean; [apply Hlc, Hchars | exact Hchars | exact Hsingle].
Qed.

Lemma ascii_toLowerCase_clean (s : jsstring) :
  Forall (fun c => is_slug_char c = true) s -> ascii_toLowerCase s = s.
Proof.
  intros Hs. unfold ascii_toLowerCase.
  induction Hs as [| c s Hc _ IH]; [reflexivity |].
  cbn [map]. rewrite IH. f_equal.
  destruct (N.leb 65 c && N.leb c 90)%bool eqn:E; [exfalso | reflexivity].
  unfold is_slug_char, is_lower, is_digit, is_hyphen, hyphen in Hc.
  rewrite !orb_true_iff, !andb_true_iff, ?N.eqb_eq, !N.leb_le in Hc.
  rewrite andb_true_iff, !N.leb_le in E. lia.
Qed.

(** The title ["Hello,  World"], whose slug is [hello-world]. *)
Lemma slug_idempotent_witness :
  generateSlug ascii_toLowerCase (generateSlug ascii_toLowerCase (lit "Hello,  World"))
  = generateSlug ascii_toLowerCase (lit "Hello,  World").
Proof.
  exact (slug_idempotent ascii_toLowerCase (lit "Hello,  World") ascii_toLowerCase_clean).
Defined.

(** * Tags *)

Lemma str_leb_refl (a : jsstring) : str_leb a a = true.
Proof.
  induction a as [| c a IH]; [reflexivity |].
  cbn [str_leb]. rewrite N.ltb_irrefl. exact IH.
Qed.

Lemma str_leb_total (a b : jsstring) : str_leb a b = true \/ str_leb b a = true.
Proof.
  revert b. induction a as [| c a IH]; intros [| d b]; cbn [str_leb]; auto.
  destruct (N.ltb_spec c d), (N.ltb_spec d c); auto; lia.
Qed.

Lemma str_leb_trans (a b c : jsstring) :
  str_leb a b = true -> str_leb b c = true -> str_leb a c = true.
Proof.
  revert b c. induction a as [| x a IH]; intros [| y b] [| z c]; cbn [str_leb];
    try reflexivity; try discriminate.
  destruct (N.ltb_spec x y), (N.ltb_spec y x), (N.ltb_spec y z), (N.ltb_spec z y),
    (N.ltb_spec x z), (N.ltb_spec z x);
    try reflexivity; try discriminate; try lia.
  apply IH.
Qed.

Lemma str_leb_antisym (a b : jsstring) :
  str_leb a b = true -> str_leb b a = true -> a = b.
Proof.
  revert b. induction a as [| x a IH]; intros [| y b]; cbn [str_leb];
    try reflexivity; try discriminate.
  destruct (N.ltb_spec x y), (N.ltb_spec y x); try discriminate; try lia.
  intros H1 H2. f_equal; [lia | apply IH; assumption].
Qed.

Lemma sort_insert_perm (x : jsstring) (l : list jsstring) :
  Permutation (x :: l) (sort_insert x l).
Proof.
  induction l as [| y l IH]; [reflexivity |].
  cbn [sort_insert]. destruct (str_leb x y); [reflexivity |].
  rewrite perm_swap. apply perm_skip, IH.
Qed.

Lemma Array_sort_perm (l : list jsstring) : Permutation l (Array_sort l).
Proof.
  induction l as [| x l IH]; [reflexivity |].
  cbn [Array_sort fold_right]. rewrite <- sort_insert_perm. apply perm_skip, IH.
Qed.

Lemma sort_insert_sorted (x : jsstring) (l : list jsstring) :
  StronglySorted (fun a b => str_leb a b = true) l ->
  StronglySorted (fun a b => str_leb a b = true) (sort_insert x l).
Proof.
  intros Hl. induction Hl as [| y l Hl IH Hy]; [repeat constructor |].
  cbn [sort_insert]. destruct (str_leb x y) eqn:E.
  - constructor; [constructor; assumption |].
    constructor; [exact E |].
    eapply Forall_impl; [| exact Hy]. intros z Hz. exact (str_leb_trans _ _ _ E Hz).
  - constructor; [exact IH |].
    apply (Permutation_Forall (sort_insert_perm x l)).
    constructor; [| exact Hy].
    destruct (str_leb_total x y) as [H | H]; [congruence | exact H].
Qed.

Lemma Array_sort_sorted (l : list jsstring) :
  StronglySorted (fun a b => str_leb a b = true) (Array_sort l).
Proof.
  induction l as [| x l IH]; [constructor |].
  cbn [Array_sort fold_right]. apply sort_insert_sorted, IH.
Qed.

Lemma Set_add_spec (tags : list jsstring) (tag : jsstring) :
  (forall t, In t (Set_add tags tag) <-> In t tags \/ t = tag)
  /\ (NoDup tags -> NoDup (Set_add tags tag)).
Proof.
  unfold Set_add. destruct (existsb (str_eqb tag) tags) eqn:E.
  - apply existsb_exists in E. destruct E as (t' & Hin & Heq).
    apply str_eqb_eq in Heq. subst t'. split; [| auto].
    intros t. split; [auto |]. intros [H | ->]; assumption.
  - split.
    + intros t. rewrite in_app_iff. cbn [In]. split.
      * intros [H | [H | []]]; [left; exact H | right; symmetry; exact H].
      * intros [H | ->]; [left; exact H | right; left; reflexivity].
    + intros Hnd. apply NoDup_app; [exact Hnd | repeat constructor; intros [] |].
      intros t Hin [<- | []].
      assert (Hex : existsb (str_eqb tag) tags = true)
        by (apply existsb_exists; exists tag; split;
            [exact Hin | apply str_eqb_eq; reflexivity]).
      congruence.
Qed.

Lemma add_tags_spec (new tags : list jsstring) :
  (forall t, In t (fold_left Set_add new tags) <-> In t tags \/ In t new)
  /\ (NoDup tags -> NoDup (fold_left Set_add new tags)).
Proof.
  revert tags. induction new as [| x new IH]; intros tags.
  - split; [intros t; cbn; tauto | auto].
  - cbn [fold_left]. destruct (IH (Set_add tags x)) as (Hin & Hnd).
    destruct (Set_add_spec tags x) as (Hin' & Hnd').
    split; [| auto].
    intros t. rewrite Hin, Hin'. cbn [In]. split.
    + intros [[H | ->] | H]; auto.
    + intros [H | [<- | H]]; auto.
Qed.

Lemma collect_tags_spec (posts : list Post.t) (tags : list jsstring) :
  (forall t, In t (fold_left (fun tags post => fold_left Set_add (Post.tags post) tags)
                             posts tags)
             <-> In t tags \/ exists post, In post posts /\ In t (Post.tags post))
  /\ (NoDup tags ->
      NoDup (fold_left (fun tags post => fold_left Set_add (Post.tags post) tags)
                       posts tags)).
Proof.
  revert tags. induction posts as [| p posts IH]; intros tags.
  - split; [| auto]. intros t. cbn. split; [auto |]. intros [H | (post & [] & _)]. exact H.
  - cbn [fold_left]. destruct (IH (fold_left Set_add (Post.tags p) tags)) as (Hin & Hnd).
    destruct (add_tags_spec (Post.tags p) tags) as (Hin' & Hnd').
    split; [| auto].
    intros t. rewrite Hin, Hin'. cbn [In]. split.
    + intros [[H | H] | (post & Hp & Ht)]; [left; exact H | right; exists p; auto |].
      right. exists post. auto.
    + intros [H | (post & [<- | Hp] & Ht)]; [auto | auto |].
      right. exists post. auto.
Qed.

(** X18.  [getAllTags] lists exactly the tags that occur on some post, each
    once, in strictly increasing order of their code units. *)
Theorem getAllTags_sorted_distinct (allPosts : list Post.t) :
  (forall t, In t (getAllTags allPosts)
             <-> exists post, In post allPosts /\ In t (Post.tags post))
  /\ StronglySorted (fun a b => str_leb a b = true /\ a <> b) (getAllTags allPosts)
  /\ NoDup (getAllTags allPosts).
Proof.
  unfold getAllTags. cbv zeta.
  destruct (collect_tags_spec allPosts []) as (Hin & Hnd).
  set (tags := fold_left (fun tags post => fold_left Set_add (Post.tags post) tags)
                         allPosts []) in *.
  assert (Hnd' : NoDup (Array_sort tags))
    by (apply (Permutation_NoDup (Array_sort_perm tags)), Hnd; constructor).
  split; [| split; [| exact Hnd']].
  - intros t. rewrite <- (Permutation_in' eq_refl (Array_sort_perm tags)), Hin.
    cbn [In]. tauto.
  - pose proof (Array_sort_sorted tags) as Hs.
    induction Hs as [| x l Hl IH Hx]; [constructor |].
    apply NoDup_cons_iff in Hnd'. destruct Hnd' as (Hnx & Hndl).
    constructor; [apply IH, Hndl |].
    apply Forall_forall. intros y Hy. split.
    + exact (proj1 (Forall_forall _ _) Hx y Hy).
    + intros ->. contradiction.
Qed.

(** * Post files *)

Lemma endsWith_suffix (s p : jsstring) :
  endsWith s p = true <-> exists front, s = front ++ p.
Proof.
  unfold endsWith. rewrite startsWith_prefix. split.
  - intros [rest H]. exists (rev rest).
    apply (f_equal (@rev N)) in H. rewrite rev_involutive, rev_app_distr, rev_involutive in H.
    exact H.
  - intros [front ->]. exists (rev front). apply rev_app_distr.
Qed.

Lemma strip_md_post_file (fileName : jsstring) :
  endsWith fileName (lit ".md") = true -> post_file (strip_md fileName) = fileName.
Proof.
  intros H. unfold strip_md, post_file. rewrite H.
  apply endsWith_suffix in H. destruct H as [front ->].
  rewrite List.length_app. change (List.length (lit ".md")) with 3%nat.
  replace (List.length front + 3 - 3)%nat with (List.length front + 0)%nat by lia.
  rewrite firstn_app_2. cbn [firstn]. rewrite app_nil_r. reflexivity.
Qed.

(** X19.  Every slug [getAllPostSlugs] lists leads [getPostBySlug] back to
    the file it came from: putting [.md] after the slugs gives exactly the
    directory's [.md] files, in the directory's order.  When the directory
    cannot be read the list is empty. *)
Theorem slugs_name_their_files (fileNames : list jsstring) :
  map post_file (getAllPostSlugs (Some fileNames))
  = filter (fun fileName => endsWith fileName (lit ".md")) fileNames
  /\ getAllPostSlugs None = [].
Proof.
  split; [| reflexivity]. cbn [getAllPostSlugs]. rewrite map_map.
  induction fileNames as [| f fs IH]; [reflexivity |].
  cbn [filter]. destruct (endsWith f (lit ".md")) eqn:E; [| exact IH].
  cbn [map]. rewrite IH, (strip_md_post_file f E). reflexivity.
Qed.

(** * Frontmatter lines *)

Lemma trimEnd_keeps_last (u : jsstring) (c : N) :
  is_space c = false -> trimEnd (u ++ [c]) = u ++ [c].
Proof.
  intros Hc. unfold trimEnd. rewrite rev_app_distr. cbn [rev app trimStart].
  rewrite Hc. cbn [rev]. rewrite rev_involutive. reflexivity.
Qed.

Lemma trim_keeps_edges (c d : N) (u : jsstring) :
  is_space c = false -> is_space d = false -> trim (c :: u ++ [d]) = c :: u ++ [d].
Proof.
  intros Hc Hd. unfold trim. cbn [trimStart]. rewrite Hc.
  exact (trimEnd_keeps_last (c :: u) d Hd).
Qed.

Lemma split_on_plain (sep : N) (cur s : jsstring) :
  Forall (fun c => c <> sep) s -> split_on sep cur s = [rev cur ++ s].
Proof.
  intros Hs. revert cur. induction Hs as [| c s Hc _ IH]; intros cur.
  - cbn [split_on]. rewrite app_nil_r. reflexivity.
  - cbn [split_on]. destruct (N.eqb_spec c sep) as [E | _]; [contradiction |].
    rewrite IH. cbn [rev]. rewrite <- app_assoc. reflexivity.
Qed.

Lemma split_on_sep (sep : N) (cur s rest : jsstring) :
  Forall (fun c => c <> sep) s ->
  split_on sep cur (s ++ sep :: rest) = (rev cur ++ s) :: split_on sep [] rest.
Proof.
  intros Hs. revert cur. induction Hs as [| c s Hc _ IH]; intros cur.
  - cbn [app split_on]. rewrite N.eqb_refl, app_nil_r. reflexivity.
  - cbn [app split_on]. destruct (N.eqb_spec c sep) as [E | _]; [contradiction |].
    rewrite IH. cbn [rev]. rewrite <- app_assoc. reflexivity.
Qed.

Lemma remove_quotes_plain (t : jsstring) :
  Forall (fun c => c <> comma /\ is_quote c = false) t -> remove_quotes t = t.
Proof.
  intros Ht. unfold remove_quotes. induction Ht as [| c t [_ Hc] _ IH]; [reflexivity |].
  cbn [filter]. rewrite Hc, IH. reflexivity.
Qed.

Lemma quoted_no_comma (t : jsstring) :
  Forall (fun c => c <> comma /\ is_quote c = false) t ->
  Forall (fun c => c <> comma) (lit "'" ++ t ++ lit "'").
Proof.
  intros Ht. apply Forall_app. split; [repeat constructor; discriminate |].
  apply Forall_app. split; [| repeat constructor; discriminate].
  eapply Forall_impl; [| exact Ht]. intros c [Hc _]. exact Hc.
Qed.

Lemma unquote_piece (t : jsstring) :
  Forall (fun c => c <> comma /\ is_quote c = false) t ->
  remove_quotes (trim (lit "'" ++ t ++ lit "'")) = t
  /\ remove_quotes (trim (lit " " ++ lit "'" ++ t ++ lit "'")) = t.
Proof.
  intros Ht.
  assert (Htrim : trim (lit "'" ++ t ++ lit "'") = lit "'" ++ t ++ lit "'")
    by (apply (trim_keeps_edges 39 39 t); reflexivity).
  assert (Hquote : remove_quotes (lit "'" ++ t ++ lit "'") = t).
  { unfold remove_quotes. cbn [lit list_ascii_of_string map app filter].
    change (negb (is_quote (N_of_ascii "'"))) with false. cbn iota.
    rewrite filter_app. cbn [filter].
    change (negb (is_quote (N_of_ascii "'"))) with false. cbn iota.
    rewrite app_nil_r. apply (remove_quotes_plain t Ht). }
  split.
  - rewrite Htrim. exact Hquote.
  - assert (Hsp : trim (lit " " ++ lit "'" ++ t ++ lit "'") = trim (lit "'" ++ t ++ lit "'"))
      by reflexivity.
    rewrite Hsp, Htrim. exact Hquote.
Qed.

Lemma split_joined_tags (t : jsstring) (ts : list jsstring) :
  Forall (fun t => Forall (fun c => c <> comma /\ is_quote c = false) t) (t :: ts) ->
  map (fun v => remove_quotes (trim v))
      (split_on comma []
         (join_comma (map (fun tag => lit "'" ++ tag ++ lit "'") (t :: ts))))
  = t :: ts
  /\ map (fun v => remove_quotes (trim v))
         (split_on comma []
            (lit " " ++ join_comma (map (fun tag => lit "'" ++ tag ++ lit "'") (t :: ts))))
     = t :: ts.
Proof.
  revert t. induction ts as [| t' ts IH]; intros t Hall.
  - apply Forall_inv in Hall. cbn [map join_comma].
    destruct (unquote_piece t Hall) as (H1 & H2).
    rewrite split_on_plain by (apply quoted_no_comma; exact Hall).
    rewrite split_on_plain
      by (apply Forall_app; split;
          [repeat constructor; discriminate | apply quoted_no_comma; exact Hall]).
    cbn [rev app map]. rewrite H1. split; [reflexivity |].
    change (32%N :: lit "'" ++ t ++ lit "'") with (lit " " ++ lit "'" ++ t ++ lit "'").
    rewrite H2. reflexivity.
  - pose proof (Forall_inv Hall) as Ht. pose proof (Forall_inv_tail Hall) as Hts.
    destruct (IH t' Hts) as (_ & IH2).
    destruct (unquote_piece t Ht) as (H1 & H2).
    assert (Hjoin : join_comma (map (fun tag => lit "'" ++ tag ++ lit "'") (t :: t' :: ts))
                    = (lit "'" ++ t ++ lit "'")
                      ++ comma :: (lit " " ++ join_comma
                                     (map (fun tag => lit "'" ++ tag ++ lit "'") (t' :: ts))))
      by reflexivity.
    rewrite Hjoin. split.
    + rewrite split_on_sep by (apply quoted_no_comma; exact Ht).
      rewrite map_cons. cbn [rev app]. rewrite H1. f_equal. exact IH2.
    + rewrite app_assoc.
      rewrite split_on_sep
        by (apply Forall_app; split;
            [repeat constructor; discriminate | apply quoted_no_comma; exact Ht]).
      rewrite map_cons. cbn [rev]. rewrite app_nil_l, H2. f_equal. exact IH2.
Qed.

Lemma slice_inner_brackets (inner : jsstring) :
  slice_inner (lit "[" ++ inner ++ lit "]") = inner.
Proof.
  unfold slice_inner. cbn [lit list_ascii_of_string map app skipn List.length].
  rewrite List.length_app. cbn [List.length].
  replace (S (List.length inner + 1) - 2)%nat with (List.length inner + 0)%nat by lia.
  rewrite firstn_app_2. cbn [firstn]. apply app_nil_r.
Qed.

Lemma parse_value_tags (tags : list jsstring) :
  Forall (fun t => Forall (fun c => c <> comma /\ is_quote c = false) t) tags ->
  parse_value (tagsString tags)
  = VArray match tags with [] => [[]] | _ :: _ => tags end.
Proof.
  intros Hall. unfold parse_value, tagsString.
  assert (Hs : startsWith
                 (lit "[" ++ join_comma (map (fun tag => lit "'" ++ tag ++ lit "'") tags)
                  ++ lit "]") (lit "[") = true)
    by (apply startsWith_prefix; eexists; reflexivity).
  assert (He : endsWith
                 (lit "[" ++ join_comma (map (fun tag => lit "'" ++ tag ++ lit "'") tags)
                  ++ lit "]") (lit "]") = true)
    by (apply endsWith_suffix; eexists; apply app_assoc).
  rewrite Hs, He, slice_inner_brackets. cbn [andb]. f_equal.
  destruct tags as [| t ts]; [reflexivity |].
  apply (split_joined_tags t ts Hall).
Qed.

(** X20.  The tags line [createStandardFrontmatter] writes is read back by
    the line parser of [extractFrontmatter] as the same array of tags, as
    long as no tag holds a comma or a quote; white space inside a tag is
    kept.  The empty array is the exception: [tags: []] is read back as an
    array holding one empty tag. *)
Theorem tags_line_round_trip (tags : list jsstring) :
  Forall (fun t => Forall (fun c => c <> comma /\ is_quote c = false) t) tags ->
  parse_line (tags_line tags)
  = Some (lit "tags", VArray match tags with [] => [[]] | _ :: _ => tags end).
Proof.
  intros Hall. unfold parse_line, tags_line.
  assert (Hidx : indexOf colon (lit "tags: " ++ tagsString tags) = Some 4%nat)
    by reflexivity.
  rewrite Hidx. cbv zeta.
  assert (Hkey : trim (firstn 4 (lit "tags: " ++ tagsString tags)) = lit "tags")
    by reflexivity.
  assert (Hval : trim (skipn (4 + 1) (lit "tags: " ++ tagsString tags)) = tagsString tags).
  { transitivity (trimEnd (tagsString tags)); [reflexivity |].
    unfold tagsString. rewrite app_assoc. apply trimEnd_keeps_last. reflexivity. }
  rewrite Hkey, Hval, (parse_value_tags tags Hall). reflexivity.
Qed.

(** Two tags, one of them with a blank inside. *)
Lemma tags_line_round_trip_witness :
  parse_line (tags_line [lit "GPU"; lit "deep learning"])
  = Some (lit "tags", VArray [lit "GPU"; lit "deep learning"]).
Proof.
  apply (tags_line_round_trip [lit "GPU"; lit "deep learning"]).
  repeat constructor; discriminate.
Defined.

Lemma indexOf_first (c : N) (key rest : jsstring) :
  ~ In c key -> indexOf c (key ++ c :: rest) = Some (List.length key).
Proof.
  induction key as [| d key IH]; intros Hno.
  - cbn [app indexOf]. rewrite N.eqb_refl. reflexivity.
  - cbn [app indexOf List.length].
    destruct (N.eqb_spec d c) as [E | _]; [exfalso; apply Hno; left; exact E |].
    rewrite IH by (intros Hin; apply Hno; right; exact Hin). reflexivity.
Qed.

Lemma strip_edge_quotes_plain (value : jsstring) :
  match value with c :: _ => is_quote c | [] => false end = false ->
  match rev value with c :: _ => is_quote c | [] => false end = false ->
  strip_edge_quotes value = value.
Proof.
  intros Hhead Hlast. unfold strip_edge_quotes.
  destruct value as [| c rest]; [reflexivity |].
  rewrite Hhead. destruct (rev (c :: rest)) as [| d front]; [reflexivity |].
  rewrite Hlast. reflexivity.
Qed.

(** X21.  A line [key: value] of the template is read back by the line
    parser as that key with that value, a string, when the key has no colon,
    neither has blanks around it, and the value is not bracketed and has no
    quote at either end. *)
Theorem field_line_round_trip (key value : jsstring) :
  ~ In colon key -> trim key = key -> trim value = value ->
  is_plain_value value = true ->
  parse_line (field_line key value) = Some (key, VString value).
Proof.
  intros Hcolon Hkey Hvalue Hplain. unfold parse_line, field_line.
  change (lit ": " ++ value) with (colon :: 32%N :: value).
  rewrite (indexOf_first colon key (32%N :: value) Hcolon). cbv zeta.
  rewrite firstn_app, Nat.sub_diag, firstn_all. cbn [firstn]. rewrite app_nil_r, Hkey.
  rewrite skipn_app, skipn_all2 by lia.
  replace (List.length key + 1 - List.length key)%nat with 1%nat by lia.
  cbn [app skipn].
  change (trim (32%N :: value)) with (trim value). rewrite Hvalue.
  unfold is_plain_value in Hplain.
  rewrite !andb_true_iff, !negb_true_iff in Hplain. destruct Hplain as ((Hb & Hh) & Hl).
  unfold parse_value. rewrite Hb, (strip_edge_quotes_plain value Hh Hl). reflexivity.
Qed.

(** The title line of a post. *)
Lemma field_line_round_trip_witness :
  parse_line (field_line (lit "title") (lit "Making Kernels Faster"))
  = Some (lit "title", VString (lit "Making Kernels Faster")).
Proof.
  apply (field_line_round_trip (lit "title") (lit "Making Kernels Faster")).
  - cbn. intros H. repeat (destruct H as [H | H]; [discriminate H |]). exact H.
  - reflexivity.
  - reflexivity.
  - reflexivity.
Defined.

(** * Tags typed at the prompt *)

Lemma split_on_pieces (sep : N) (s cur : jsstring) :
  ~ In sep cur -> Forall (fun piece => ~ In sep piece) (split_on sep cur s).
Proof.
  revert cur. induction s as [| c s IH]; intros cur Hcur; cbn [split_on].
  - constructor; [| constructor]. intros Hin. apply Hcur, in_rev, Hin.
  - destruct (N.eqb_spec c sep) as [E | Hne].
    + constructor; [intros Hin; apply Hcur, in_rev, Hin | apply IH; intros []].
    + apply IH. intros [H | H]; [exact (Hne H) | exact (Hcur H)].
Qed.

Lemma trim_sublist (s : jsstring) (c : N) : In c (trim s) -> In c s.
Proof.
  intros Hin. unfold trim in Hin.
  destruct (trimStart_split s) as (ws & Heq & _).
  destruct (trimEnd_split (trimStart s)) as (ws' & Heq' & _).
  rewrite Heq, Heq'. apply in_or_app. right. apply in_or_app. left. exact Hin.
Qed.

Lemma trim_idempotent (s : jsstring) : trim (trim s) = trim s.
Proof.
  unfold trim at 2 3.
  destruct (trimEnd_last (trimStart s)) as [Hnil | (u & d & Hu & Hd)];
    [rewrite Hnil; reflexivity |].
  destruct (trimEnd_split (trimStart s)) as (ws' & Heq' & _).
  rewrite Hu in Heq' |- *.
  destruct u as [| c u].
  - unfold trim. cbn [app trimStart]. rewrite Hd. exact (trimEnd_keeps_last [] d Hd).
  - assert (Hc : is_space c = false).
    { destruct (trimStart s) as [| c0 t0] eqn:Et; [discriminate Heq' |].
      cbn [app] in Heq'. injection Heq' as -> _. exact (trimStart_head _ _ _ Et). }
    apply (trim_keeps_edges c d u Hc Hd).
Qed.

(** X22.  Every tag kept from the prompt is non-empty, has no white space
    around it and holds no comma. *)
Theorem prompt_tags_clean (tagsInput : jsstring) :
  Forall (fun tag => tag <> [] /\ trim tag = tag /\ ~ In comma tag)
         (tags_of_input tagsInput).
Proof.
  unfold tags_of_input. apply Forall_forall. intros tag Hin.
  apply filter_In in Hin. destruct Hin as (Hin & Hne).
  apply in_map_iff in Hin. destruct Hin as (piece & <- & Hpiece).
  split; [destruct (trim piece); [discriminate Hne | discriminate] |].
  split; [apply trim_idempotent |].
  intros Hc. apply trim_sublist in Hc.
  pose proof (split_on_pieces comma tagsInput [] (fun H => H)) as Hall.
  exact (proj1 (Forall_forall _ _) Hall piece Hpiece Hc).
Qed.
